(** * Document_Word_List: container of token-ID arrays and its intersection

    Shallow embedding of [src/Document_Word_List.c] (and of the approaches
    declared in [src/Intersection_Approaches.h]).

    Conventions of the embedding:
    - [uint_fast32_t] token values are [N]; no arithmetic is done on them, they
      are only compared and used as an index into the multiple guard;
    - [size_t] quantities (array sizes, lengths, loop indices) count cells of
      allocated blocks and are [nat]; every increment of the source is guarded
      by an assertion or bounded by a block size, so no wrap-around is reachable;
    - a heap block is the list of its cells; an access outside the block is
      undefined behaviour in C and is reported as [Out_of_bounds];
    - a pointer argument is an [option]: [None] is [NULL];
    - [ASSERT_MSG] / [ASSERT_FMSG] abort the program: the embedding returns
      [Assert_failed] with the assertion that fired;
    - [CALLOC] returns a zero-filled block, allocation never fails. *)

From stdpp Require Import base numbers option list strings pretty sorting.
From Equations Require Import Equations.

Open Scope nat_scope.

(** ** Outcomes *)

(** One constructor for each assertion of [Document_Word_List.c]. *)
Inductive Assertion : Set :=
| Number_of_arrays_is_0
| Max_array_length_is_0
| Object_is_NULL
| New_data_is_NULL
| New_data_length_is_0
| New_data_is_too_large
| All_arrays_are_in_use
| data_is_NULL
| data_length_is_0
| Invalid_intersection_mode
| data_is_too_large.

(** The text the assertion prints before aborting. *)
Definition message (a : Assertion) : string :=
  match a with
  | Number_of_arrays_is_0 => "Number of arrays is 0 !"
  | Max_array_length_is_0 => "Max array length is 0 !"
  | Object_is_NULL => "Object is NULL !"
  | New_data_is_NULL => "New data is NULL !"
  | New_data_length_is_0 => "New data length is 0 !"
  | New_data_is_too_large => "New data is too large !"
  | All_arrays_are_in_use => "All arrays are in use !"
  | data_is_NULL => "data is NULL !"
  | data_length_is_0 => "data length is 0 !"
  | Invalid_intersection_mode => "Invalid intersection mode !"
  | data_is_too_large => "data is too large !"
  end.

(** The heap blocks the functions touch. *)
Inductive Block : Set :=
| Block_object_data
| Block_object_arrays_lengths
| Block_new_data
| Block_data
| Block_result_data
| Block_result_arrays_lengths
| Block_multiple_guard.

Inductive Outcome (A : Type) : Type :=
| Ok (a : A)
| Assert_failed (a : Assertion)
| Out_of_bounds (b : Block).
Arguments Ok {A} a.
Arguments Assert_failed {A} a.
Arguments Out_of_bounds {A} b.

#[global] Instance Outcome_ret : MRet Outcome := @Ok.
#[global] Instance Outcome_bind : MBind Outcome := λ A B k m,
  match m with
  | Ok a => k a
  | Assert_failed a => Assert_failed a
  | Out_of_bounds b => Out_of_bounds b
  end.

Definition ASSERT_MSG (condition : bool) (a : Assertion) : Outcome unit :=
  if condition then Ok () else Assert_failed a.

(** Read of cell [i] of a block. *)
Definition load {A} (b : Block) (block : list A) (i : nat) : Outcome A :=
  match block !! i with
  | Some x => Ok x
  | None => Out_of_bounds b
  end.

(** Write of cell [i] of a block. *)
Definition store {A} (b : Block) (block : list A) (i : nat) (x : A) : Outcome (list A) :=
  if bool_decide (i < length block) then Ok (<[i := x]> block) else Out_of_bounds b.

(** The error taxonomy of the specification (section 7), and the kind each
    assertion of the source stands for there. *)
Inductive Error_Kind : Set :=
| InvalidArgument
| CapacityExceeded
| ContainerFull
| AllocationFailure.

Definition error_kind (a : Assertion) : Error_Kind :=
  match a with
  | New_data_is_too_large | data_is_too_large => CapacityExceeded
  | All_arrays_are_in_use => ContainerFull
  | _ => InvalidArgument
  end.

(** ** The container *)

Record Document_Word_List : Type := {
  data : list (list N);
  arrays_lengths : list nat;
  number_of_arrays : nat;
  max_array_length : nat;
  next_free_array : nat;
  intersection_data : bool;
}.

(** Assignments to one member of the structure. *)
Definition set_data (v : list (list N)) (o : Document_Word_List) : Document_Word_List :=
  {| data := v; arrays_lengths := o.(arrays_lengths);
     number_of_arrays := o.(number_of_arrays); max_array_length := o.(max_array_length);
     next_free_array := o.(next_free_array); intersection_data := o.(intersection_data) |}.

Definition set_arrays_lengths (v : list nat) (o : Document_Word_List) : Document_Word_List :=
  {| data := o.(data); arrays_lengths := v;
     number_of_arrays := o.(number_of_arrays); max_array_length := o.(max_array_length);
     next_free_array := o.(next_free_array); intersection_data := o.(intersection_data) |}.

Definition set_next_free_array (v : nat) (o : Document_Word_List) : Document_Word_List :=
  {| data := o.(data); arrays_lengths := o.(arrays_lengths);
     number_of_arrays := o.(number_of_arrays); max_array_length := o.(max_array_length);
     next_free_array := v; intersection_data := o.(intersection_data) |}.

Definition set_intersection_data (v : bool) (o : Document_Word_List) : Document_Word_List :=
  {| data := o.(data); arrays_lengths := o.(arrays_lengths);
     number_of_arrays := o.(number_of_arrays); max_array_length := o.(max_array_length);
     next_free_array := o.(next_free_array); intersection_data := v |}.

Definition Create_Document_Word_List (number_of_arrays max_array_length : nat)
  : Outcome Document_Word_List :=
  ASSERT_MSG (negb (number_of_arrays =? 0)) Number_of_arrays_is_0;;
  ASSERT_MSG (negb (max_array_length =? 0)) Max_array_length_is_0;;
  Ok {| data := replicate number_of_arrays (replicate max_array_length 0%N);
        arrays_lengths := replicate number_of_arrays 0;
        max_array_length := max_array_length;
        number_of_arrays := number_of_arrays;
        next_free_array := 0;
        intersection_data := false |}.

(** [memcpy (dest, src, n cells)]: reads [n] cells of [src], overwrites the
    first [n] cells of [dest]. *)
Definition memcpy (b_dest b_src : Block) (dest src : list N) (n : nat) : Outcome (list N) :=
  if bool_decide (length src < n) then Out_of_bounds b_src
  else if bool_decide (length dest < n) then Out_of_bounds b_dest
  else Ok (take n src ++ drop n dest).

(** The function works in place: the result pairs the outcome with the state
    of [*object] when the function returns or aborts. *)
Definition Append_Data_To_Document_Word_List
    (object : option Document_Word_List) (new_data : option (list N)) (data_length : nat)
  : Outcome unit * option Document_Word_List :=
  match object with
  | None => (Assert_failed Object_is_NULL, object)
  | Some o =>
    match new_data with
    | None => (Assert_failed New_data_is_NULL, object)
    | Some src =>
      if data_length =? 0 then (Assert_failed New_data_length_is_0, object)
      else if negb (data_length <=? o.(max_array_length)) then
        (Assert_failed New_data_is_too_large, object)
      else if negb (o.(next_free_array) <? o.(number_of_arrays)) then
        (Assert_failed All_arrays_are_in_use, object)
      else
        match o.(data) !! o.(next_free_array) with
        | None => (Out_of_bounds Block_object_data, object)
        | Some dest =>
          match memcpy Block_object_data Block_new_data dest src data_length with
          | Ok dest' =>
            let o1 := set_data (<[o.(next_free_array) := dest']> o.(data)) o in
            match store Block_object_arrays_lengths o1.(arrays_lengths)
                        o1.(next_free_array) data_length with
            | Ok lengths' =>
              let o2 := set_arrays_lengths lengths' o1 in
              (Ok (), Some (set_next_free_array (S o2.(next_free_array)) o2))
            | Assert_failed a => (Assert_failed a, Some o1)
            | Out_of_bounds b => (Out_of_bounds b, Some o1)
            end
          | Assert_failed a => (Assert_failed a, object)
          | Out_of_bounds b => (Out_of_bounds b, object)
          end
        end
    end
  end.

(** ** The intersection *)

(** [for (size_t i = from; i < from + count; ++ i) body]. *)
Fixpoint for_loop {State : Type} (count from : nat)
    (body : nat → State → Outcome State) (s : State) : Outcome State :=
  match count with
  | 0 => Ok s
  | S count' => s' ← body from s; for_loop count' (S from) body s'
  end.

(** The variables the loops of the intersection update. *)
Record Loop_State : Type := {
  intersection_result : Document_Word_List;
  size_multiple_guard : nat;
  multiple_guard : list bool;
}.

Definition multiple_guard_realloc_step : nat := 1000.

Section Intersection.

(** [REALLOC] leaves the added cells indeterminate: [fresh k] is what cell
    [k] of the guard holds when a growth first makes it part of the block. *)
Variable fresh : nat → bool.

Definition REALLOC (block : list bool) (new_size : nat) : list bool :=
  take new_size block ++ (fresh <$> seq (length block) (new_size - length block)).

(** [query] is the block the parameter [data] points to. *)
Variable object : Document_Word_List.
Variable query : list N.
Variable data_length : nat.

(** "Reicht der Speicher aus ?" (source lines 206-212): one growth step of
    the guard when the value is larger than its size. *)
Definition grow_multiple_guard (data_i3 : N) (st : Loop_State) : Loop_State :=
  if (N.of_nat st.(size_multiple_guard) <? data_i3)%N then
    let new_size := st.(size_multiple_guard) + multiple_guard_realloc_step in
    {| intersection_result := st.(intersection_result);
       size_multiple_guard := new_size;
       multiple_guard := REALLOC st.(multiple_guard) new_size |}
  else st.

(** Test of the guard and, for a value not yet marked, the append to array
    [i] of the result (source lines 214-219). *)
Definition add_to_result (i : nat) (data_i3 : N) (st : Loop_State) : Outcome Loop_State :=
  seen ← load Block_multiple_guard st.(multiple_guard) (N.to_nat data_i3);
  if (seen : bool) then Ok st
  else
    let result := st.(intersection_result) in
    used ← load Block_result_arrays_lengths result.(arrays_lengths) i;
    result_array ← load Block_result_data result.(data) i;
    result_array ← store Block_result_data result_array used data_i3;
    lengths ← store Block_result_arrays_lengths result.(arrays_lengths) i (S used);
    guard ← store Block_multiple_guard st.(multiple_guard) (N.to_nat data_i3) true;
    Ok {| intersection_result :=
            set_arrays_lengths lengths (set_data (<[i := result_array]> result.(data)) result);
          size_multiple_guard := st.(size_multiple_guard);
          multiple_guard := guard |}.

(** Body of the innermost loop (source lines 201-221). *)
Definition compare_elements (i i2 i3 : nat) (st : Loop_State) : Outcome Loop_State :=
  array ← load Block_object_data object.(data) i;
  element ← load Block_object_data array i2;
  data_i3 ← load Block_data query i3;
  if (element =? data_i3)%N then add_to_result i data_i3 (grow_multiple_guard data_i3 st)
  else Ok st.

(** Body of the loop over the elements of array [i] (lines 198-222). *)
Definition compare_with_data (i i2 : nat) (st : Loop_State) : Outcome Loop_State :=
  for_loop data_length 0 (compare_elements i i2) st.

(** Body of the loop over the arrays (lines 194-223). *)
Definition intersect_array (i : nat) (st : Loop_State) : Outcome Loop_State :=
  let st := {| intersection_result := st.(intersection_result);
               size_multiple_guard := st.(size_multiple_guard);
               multiple_guard := replicate st.(size_multiple_guard) false |} in
  length_i ← load Block_object_arrays_lengths object.(arrays_lengths) i;
  for_loop length_i 0 (compare_with_data i) st.

Definition intersection_loops (st : Loop_State) : Outcome Loop_State :=
  for_loop object.(number_of_arrays) 0 intersect_array st.

End Intersection.

(** [enum Intersection_Mode] is declared in a header that is not part of the
    sources at hand; a C enumeration value is an integer, and the only
    enumerator the function names, [INTERSECTION_MODE_DEFAULTS], is a parameter. *)
Definition Intersect_Data_With_Document_Word_List
    (INTERSECTION_MODE_DEFAULTS : Z) (fresh : nat → bool)
    (object : option Document_Word_List) (data : option (list N)) (data_length : nat)
    (mode : Z)
  : Outcome Document_Word_List :=
  match object with
  | None => Assert_failed Object_is_NULL
  | Some object =>
    match data with
    | None => Assert_failed data_is_NULL
    | Some query =>
      ASSERT_MSG (negb (data_length =? 0)) data_length_is_0;;
      ASSERT_MSG (mode =? INTERSECTION_MODE_DEFAULTS)%Z Invalid_intersection_mode;;
      ASSERT_MSG (data_length <=? object.(max_array_length)) data_is_too_large;;
      created ← Create_Document_Word_List object.(number_of_arrays) object.(max_array_length);
      st ← intersection_loops fresh object query data_length
             {| intersection_result :=
                  set_intersection_data true
                    (set_next_free_array object.(next_free_array) created);
                size_multiple_guard := multiple_guard_realloc_step;
                multiple_guard := replicate multiple_guard_realloc_step false |};
      Ok st.(intersection_result)
    end
  end.

(** ** Views of a container and its invariants *)

(** Block of array [i] and its recorded length; outside the container the
    views are empty. *)
Definition array_of (o : Document_Word_List) (i : nat) : list N :=
  default [] (o.(data) !! i).

Definition length_of (o : Document_Word_List) (i : nat) : nat :=
  default 0 (o.(arrays_lengths) !! i).

(** The elements in use of array [i]: [data [i][0 .. arrays_lengths [i])]. *)
Definition used_elements (o : Document_Word_List) (i : nat) : list N :=
  take (length_of o i) (array_of o i).

(** What [Create_Document_Word_List] allocates: [number_of_arrays] arrays of
    [max_array_length] cells and a length for each array. *)
Definition Layout (o : Document_Word_List) : Prop :=
  0 < o.(number_of_arrays) ∧ 0 < o.(max_array_length) ∧
  length o.(data) = o.(number_of_arrays) ∧
  Forall (λ array, length array = o.(max_array_length)) o.(data) ∧
  length o.(arrays_lengths) = o.(number_of_arrays).

(** The invariants of the container. *)
Definition Invariants (o : Document_Word_List) : Prop :=
  o.(next_free_array) ≤ o.(number_of_arrays) ∧
  Forall (λ used, used ≤ o.(max_array_length)) o.(arrays_lengths) ∧
  Forall (λ used, used = 0) (drop o.(next_free_array) o.(arrays_lengths)).

Definition Valid (o : Document_Word_List) : Prop := Layout o ∧ Invariants o.

#[global] Instance Layout_dec o : Decision (Layout o).
Proof. unfold Layout. apply _. Defined.
#[global] Instance Invariants_dec o : Decision (Invariants o).
Proof. unfold Invariants. apply _. Defined.
#[global] Instance Valid_dec o : Decision (Valid o).
Proof. unfold Valid. apply _. Defined.

(** ** Invariants of the loops of the intersection *)

Section Loop_Invariants.

Variable object : Document_Word_List.
Variable query : list N.
Variable data_length : nat.

(** [v] is in use in array [i] and is one of the first [data_length] values
    of the query. *)
Definition matched (i : nat) (v : N) : Prop :=
  v ∈ used_elements object i ∧ v ∈ take data_length query.

(** Every matched value is an index of the guard as first allocated. *)
Definition Addressable : Prop :=
  ∀ i v, matched i v → (v < N.of_nat multiple_guard_realloc_step)%N.

Definition Overrun : Prop :=
  ∃ i v, matched i v ∧ (N.of_nat multiple_guard_realloc_step ≤ v)%N.

Definition Same_Shape (r : Document_Word_List) : Prop :=
  r.(number_of_arrays) = object.(number_of_arrays) ∧
  r.(max_array_length) = object.(max_array_length) ∧
  r.(next_free_array) = object.(next_free_array) ∧
  r.(intersection_data) = true.

(** Array [j] of the result once the loop over the arrays has passed it. *)
Definition Slot_Done (r : Document_Word_List) (j : nat) : Prop :=
  NoDup (used_elements r j) ∧
  (∀ v, v ∈ used_elements r j → matched j v) ∧
  (Addressable → ∀ v, matched j v → v ∈ used_elements r j).

(** What holds of the loop variables while array [i] is the current one. *)
Record Common (i : nat) (st : Loop_State) : Prop := {
  common_shape : Same_Shape st.(intersection_result);
  common_layout : Layout st.(intersection_result);
  common_lengths : ∀ j,
    length_of st.(intersection_result) j ≤ st.(intersection_result).(max_array_length);
  common_guard : length st.(multiple_guard) = st.(size_multiple_guard);
  common_size : multiple_guard_realloc_step ≤ st.(size_multiple_guard);
  common_small : Addressable → st.(size_multiple_guard) = multiple_guard_realloc_step;
  common_done : ∀ j, j < i → Slot_Done st.(intersection_result) j;
  common_untouched : ∀ j, i < j → length_of st.(intersection_result) j = 0;
}.

(** Between two iterations of the loop over the arrays. *)
Definition Between (i : nat) (st : Loop_State) : Prop :=
  Common i st ∧ length_of st.(intersection_result) i = 0.

(** Inside array [i], before element [i2] is compared with [data [i3]]. *)
Record Within (i i2 i3 : nat) (st : Loop_State) : Prop := {
  within_common : Common i st;
  within_nodup : NoDup (used_elements st.(intersection_result) i);
  within_sound : ∀ v, v ∈ used_elements st.(intersection_result) i → matched i v;
  within_marks : ∀ v, v ∈ used_elements st.(intersection_result) i →
    st.(multiple_guard) !! N.to_nat v = Some true;
  within_exact : Addressable → ∀ k, st.(multiple_guard) !! k = Some true →
    ∃ v, v ∈ used_elements st.(intersection_result) i ∧ N.to_nat v = k;
  within_complete : Addressable → ∀ a b v,
    a < i2 ∨ (a = i2 ∧ b < i3) →
    a < length_of object i → b < data_length →
    array_of object i !! a = Some v → query !! b = Some v →
    v ∈ used_elements st.(intersection_result) i;
}.

(** The result of a call that returns. *)
Definition Post (r : Document_Word_List) : Prop :=
  Same_Shape r ∧ Layout r ∧
  (∀ j, length_of r j ≤ r.(max_array_length)) ∧
  (∀ j, Slot_Done r j).

End Loop_Invariants.

(** [guarded G I m]: [m] returns a state that satisfies [I], or it overruns the
    multiple guard and then [G] holds; it fails in no other way. *)
Definition guarded {A : Type} (G : Prop) (I : A → Prop) (m : Outcome A) : Prop :=
  match m with
  | Ok a => I a
  | Out_of_bounds Block_multiple_guard => G
  | _ => False
  end.

(** ** The sorted approaches

    [Intersection_Approaches.h] declares, beside the approach with two nested
    loops, two approaches that sort the arrays of the object and search the
    data in them with a binary search. Their definitions are not part of the
    sources at hand. The container, the creation of the result and the
    multiple guard they are modelled on are those of [Document_Word_List.c],
    whose [Intersect_Data_With_Document_Word_List] is the approach with two
    nested loops; the sort, the binary search and the loop over the data are
    modelled from the specification (section 4.4). *)

(** Modelled from the spec: the sort of variant A ("e.g., quicksort-family"),
    the [qsort] of [IntersectionApproach_QSortAndBinarySearch], missing. *)
Equations? quicksort (l : list N) : list N by wf (length l) lt :=
  quicksort [] := [];
  quicksort (pivot :: rest) :=
    quicksort (filter (λ x, x < pivot)%N rest)
    ++ pivot :: quicksort (filter (λ x, pivot ≤ x)%N rest).
Proof.
  all: pose proof (length_filter (λ x, x < pivot)%N rest);
       pose proof (length_filter (λ x, pivot ≤ x)%N rest); lia.
Qed.

(** Modelled from the spec: the sort of variant B ("e.g., heapsort-family"),
    the heap sort of [IntersectionApproach_HeapSortAndBinarySearch], missing:
    a heap is built from the elements and emptied from its root. *)
Inductive Heap : Set :=
| Empty
| Node (left : Heap) (root : N) (right : Heap).

Fixpoint merge (h1 : Heap) : Heap → Heap :=
  fix merge_with (h2 : Heap) : Heap :=
    match h1, h2 with
    | Empty, _ => h2
    | _, Empty => h1
    | Node l1 x1 r1, Node l2 x2 r2 =>
      if (x1 <=? x2)%N then Node (merge r1 h2) x1 l1
      else Node (merge_with r2) x2 l2
    end.

Fixpoint size (h : Heap) : nat :=
  match h with
  | Empty => 0
  | Node l _ r => S (size l + size r)
  end.

Definition heapify (l : list N) : Heap :=
  foldr (λ x h, merge (Node Empty x Empty) h) Empty l.

Fixpoint drain (count : nat) (h : Heap) : list N :=
  match count, h with
  | S count, Node l x r => x :: drain count (merge l r)
  | _, _ => []
  end.

Definition heapsort (l : list N) : list N :=
  let h := heapify l in drain (size h) h.

(** Modelled from the spec: the binary search of the sorted approaches
    (missing): is [value] one of [sorted [lo .. hi)] ? *)
Equations? binary_search_between (sorted : list N) (value : N) (lo hi : nat) : bool
    by wf (hi - lo) lt :=
  binary_search_between sorted value lo hi with decide (lo < hi) := {
    | right _ := false;
    | left _ with sorted !! (lo + (hi - lo) / 2) := {
      | None := false;
      | Some middle with N.compare middle value := {
        | Eq := true;
        | Lt := binary_search_between sorted value (S (lo + (hi - lo) / 2)) hi;
        | Gt := binary_search_between sorted value lo (lo + (hi - lo) / 2) } } }.
Proof.
  all: pose proof (Nat.div_lt (hi - lo) 2 ltac:(lia) ltac:(lia)) as Hhalf;
       simpl in Hhalf; lia.
Qed.

Definition binary_search (sorted : list N) (value : N) : bool :=
  binary_search_between sorted value 0 (length sorted).

Section Sorted_Approach.

Variable sort : list N → list N.
Variable fresh : nat → bool.
Variable object : Document_Word_List.
Variable query : list N.
Variable data_length : nat.

(** Modelled from the spec: body of the loop over the data of a sorted
    approach (the definitions of the approaches are missing): "for each query
    element perform a binary search in the sorted side; on a hit, deduplicate
    via guard before appending". The guard and the append are those of the
    source (lines 205-219). *)
Definition search_element (sorted : list N) (i i3 : nat) (st : Loop_State)
  : Outcome Loop_State :=
  data_i3 ← load Block_data query i3;
  if binary_search sorted data_i3
  then add_to_result i data_i3 (grow_multiple_guard fresh data_i3 st)
  else Ok st.

(** Modelled from the spec: body of the loop over the arrays of a sorted
    approach (missing): the guard is cleared as in the source (line 196), the
    elements in use of array [i] are sorted ascending ("a previous ascending
    sort of the elements in the Document_Word_List"), the data are searched in
    them. *)
Definition search_array (i : nat) (st : Loop_State) : Outcome Loop_State :=
  let st := {| intersection_result := st.(intersection_result);
               size_multiple_guard := st.(size_multiple_guard);
               multiple_guard := replicate st.(size_multiple_guard) false |} in
  length_i ← load Block_object_arrays_lengths object.(arrays_lengths) i;
  array ← load Block_object_data object.(data) i;
  if bool_decide (length_i ≤ length array)
  then for_loop data_length 0 (search_element (sort (take length_i array)) i) st
  else Out_of_bounds Block_object_data.

(** Modelled from the spec: the loop over the arrays of a sorted approach
    (missing), as the source has it for the nested loops (line 194). *)
Definition search_loops (st : Loop_State) : Outcome Loop_State :=
  for_loop object.(number_of_arrays) 0 search_array st.

End Sorted_Approach.

(** Modelled from the spec: a sorted approach, whose definition is missing.
    The assertions are those its declaration documents: "object != NULL",
    "data != NULL" and one on the data length, written "data_length = 0"
    there and taken as the source has it (line 173: the length is not 0). The
    result is created and flagged, and the guard allocated, as in
    [Intersect_Data_With_Document_Word_List] (lines 178-191). *)
Definition IntersectionApproach_SortAndBinarySearch (sort : list N → list N)
    (fresh : nat → bool)
    (object : option Document_Word_List) (data : option (list N)) (data_length : nat)
  : Outcome Document_Word_List :=
  match object with
  | None => Assert_failed Object_is_NULL
  | Some object =>
    match data with
    | None => Assert_failed data_is_NULL
    | Some query =>
      ASSERT_MSG (negb (data_length =? 0)) data_length_is_0;;
      created ← Create_Document_Word_List object.(number_of_arrays) object.(max_array_length);
      st ← search_loops sort fresh object query data_length
             {| intersection_result :=
                  set_intersection_data true
                    (set_next_free_array object.(next_free_array) created);
                size_multiple_guard := multiple_guard_realloc_step;
                multiple_guard := replicate multiple_guard_realloc_step false |};
      Ok st.(intersection_result)
    end
  end.

(** Modelled from the spec: the approach declared with the sort "QSort"
    (variant A), missing. *)
Definition IntersectionApproach_QSortAndBinarySearch :=
  IntersectionApproach_SortAndBinarySearch quicksort.

(** Modelled from the spec: the approach declared with the sort "Heapsort"
    (variant B), missing. *)
Definition IntersectionApproach_HeapSortAndBinarySearch :=
  IntersectionApproach_SortAndBinarySearch heapsort.

(** ** Notions for the approaches *)

(** The values a heap holds. *)
Fixpoint elements (h : Heap) : list N :=
  match h with
  | Empty => []
  | Node l x r => x :: elements l ++ elements r
  end.

(** The root of every subtree is at most the values below it. *)
Fixpoint Heap_Ordered (h : Heap) : Prop :=
  match h with
  | Empty => True
  | Node l x r =>
    Heap_Ordered l ∧ Heap_Ordered r ∧
    Forall (N.le x) (elements l) ∧ Forall (N.le x) (elements r)
  end.

(** An ascending array, by its indices. *)
Definition Ascending (l : list N) : Prop :=
  ∀ i j x y, i ≤ j → l !! i = Some x → l !! j = Some y → (x ≤ y)%N.

(** While the data are searched in array [i]: the first [i3] values of the
    data that are in the array are in the result. *)
Definition Searched (object : Document_Word_List) (query : list N) (data_length : nat)
    (i i3 : nat) (st : Loop_State) : Prop :=
  Within object query data_length i 0 0 st ∧
  (Addressable object query data_length →
   ∀ b v, b < i3 → query !! b = Some v → v ∈ used_elements object i →
          v ∈ used_elements st.(intersection_result) i).

(** ** Scenarios *)

(** A container as a caller obtains it: created with [number_of_arrays] arrays
    of [max_array_length] cells, then filled by one append for each array of
    [arrays]. [None] if the creation aborts. *)
Definition build (number_of_arrays max_array_length : nat) (arrays : list (list N))
  : option Document_Word_List :=
  foldl (λ object new_data,
           (Append_Data_To_Document_Word_List object (Some new_data) (length new_data)).2)
        (match Create_Document_Word_List number_of_arrays max_array_length with
         | Ok object => Some object
         | _ => None
         end)
        arrays.

(** The concrete scenario of the specification (section 8). *)
Definition scenario : option Document_Word_List :=
  build 2 5 [[1; 2; 3; 2; 1]; [4; 5; 6]]%N.

Definition scenario_container : Document_Word_List :=
  {| data := [[1; 2; 3; 2; 1]; [4; 5; 6; 0; 0]]%N;
     arrays_lengths := [5; 3];
     number_of_arrays := 2;
     max_array_length := 5;
     next_free_array := 2;
     intersection_data := false |}.

Definition scenario_query : list N := [1; 2; 4]%N.

(** A container of one array that holds the one value [v]. *)
Definition single (v : N) : Document_Word_List :=
  {| data := [[v]];
     arrays_lengths := [1];
     number_of_arrays := 1;
     max_array_length := 1;
     next_free_array := 1;
     intersection_data := false |}.

(** Two contents [REALLOC] may leave in the cells it adds. *)
Definition cleared : nat → bool := λ _, false.
Definition dirty : nat → bool := λ _, true.

(** ** Notions for further properties of the source *)

(** The containers a caller can hold: a created container, filled by appends
    that returned. *)
Inductive Reachable : Document_Word_List → Prop :=
| Reachable_create (n m : nat) (o : Document_Word_List) :
    Create_Document_Word_List n m = Ok o → Reachable o
| Reachable_append (o : Document_Word_List) (new_data : list N) (data_length : nat)
    (o' : Document_Word_List) :
    Reachable o →
    Append_Data_To_Document_Word_List (Some o) (Some new_data) data_length
      = (Ok (), Some o') →
    Reachable o'.

(** The values of [l] that are in [query], each once, in the order of their
    first occurrence in [l]. *)
Definition pass_step (query out : list N) (x : N) : list N :=
  if decide (x ∈ query ∧ x ∉ out) then out ++ [x] else out.

Definition first_matches (query l : list N) : list N :=
  foldl (pass_step query) [] l.

(** The result container after the append of [y] to its array [i]. *)
Definition appended (i : nat) (y : N) (r : Document_Word_List) : Document_Word_List :=
  set_arrays_lengths (<[i := S (length_of r i)]> r.(arrays_lengths))
    (set_data (<[i := <[length_of r i := y]> (array_of r i)]> r.(data)) r).

(** The cells of array [j] after the elements in use are 0. *)
Definition Zero_Tail (r : Document_Word_List) (j : nat) : Prop :=
  array_of r j
  = used_elements r j ++ replicate (r.(max_array_length) - length_of r j) 0%N.

Section Order_Invariants.

Variable object : Document_Word_List.
Variable query : list N.
Variable data_length : nat.

(** Array [j] of the result holds the first matches of array [j]. *)
Definition Passed (r : Document_Word_List) (j : nat) : Prop :=
  used_elements r j = first_matches (take data_length query) (used_elements object j).

Definition Ordered_Between (i : nat) (st : Loop_State) : Prop :=
  (∀ j, j < i → Passed st.(intersection_result) j) ∧
  (∀ j, j < object.(number_of_arrays) → Zero_Tail st.(intersection_result) j).

(** Inside array [i], before element [i2] is compared with [data [i3]]. *)
Definition Ordered_Within (i i2 i3 : nat) (st : Loop_State) : Prop :=
  (∀ j, j < i → Passed st.(intersection_result) j) ∧
  (∀ j, j < object.(number_of_arrays) → Zero_Tail st.(intersection_result) j) ∧
  used_elements st.(intersection_result) i
  = let base := first_matches (take data_length query) (take i2 (array_of object i)) in
    match array_of object i !! i2 with
    | Some x => pass_step (take i3 query) base x
    | None => base
    end.

End Order_Invariants.

(** ** The printout

    [Show_Data_From_Document_Word_List] writes to the standard output; the
    embedding returns the text written. *)

Definition newline : string := String (Ascii.ascii_of_nat 10) EmptyString.

Fixpoint spaces (n : nat) : string :=
  match n with
  | 0 => ""
  | S n => " " +:+ spaces n
  end.

(** [printf] of an unsigned number under the conversions ["%2zu"] and
    ["%2" PRIuFAST32]: the decimal digits, with spaces on the left up to a
    width of 2. *)
Definition printf_2u (n : N) : string :=
  spaces (2 - String.length (pretty n)) +:+ pretty n.

(** Body of the loop over the elements of array [i] (source lines 121-129);
    [length_i] is [arrays_lengths [i]]. *)
Definition show_element (object : Document_Word_List) (i length_i i2 : nat)
    (out : string) : Outcome string :=
  array ← load Block_object_data object.(data) i;
  element ← load Block_object_data array i2;
  let out := out +:+ printf_2u element in
  Ok (if bool_decide (i2 + 1 < length_i) then out +:+ ", " else out).

(** Body of the loop over the arrays (source lines 118-131). *)
Definition show_array (object : Document_Word_List) (i : nat) (out : string)
  : Outcome string :=
  let out := out +:+ printf_2u (N.of_nat (i + 1)) +:+ ": { " in
  length_i ← load Block_object_arrays_lengths object.(arrays_lengths) i;
  out ← for_loop length_i 0 (show_element object i length_i) out;
  Ok (out +:+ " }" +:+ newline).

Definition Show_Data_From_Document_Word_List (object : option Document_Word_List)
  : Outcome string :=
  match object with
  | None => Assert_failed Object_is_NULL
  | Some object =>
    for_loop object.(number_of_arrays) 0 (show_array object) ("> Data <" +:+ newline)
  end.

(** The values of a list, separated by [", "]. *)
Fixpoint show_values (l : list N) : string :=
  match l with
  | [] => ""
  | x :: l' =>
    printf_2u x +:+ match l' with
                    | [] => ""
                    | _ :: _ => ", " +:+ show_values l'
                    end
  end.

(** The line of array [i], and the lines of the arrays from [i] on. *)
Definition show_line (i : nat) (l : list N) : string :=
  printf_2u (N.of_nat (i + 1)) +:+ ": { " +:+ show_values l +:+ " }" +:+ newline.

Fixpoint show_lines (i : nat) (arrays : list (list N)) : string :=
  match arrays with
  | [] => ""
  | l :: arrays => show_line i l +:+ show_lines (S i) arrays
  end.

(** * Properties *)

(** ** Outcomes and loops *)

Lemma guarded_bind {A B} (G : Prop) (J : A → Prop) (I : B → Prop)
    (m : Outcome A) (k : A → Outcome B) :
  guarded G J m → (∀ a, J a → guarded G I (k a)) → guarded G I (m ≫= k).
Proof.
  destruct m as [a|a|b]; simpl; intros Hm Hk; try done.
  by apply Hk.
Qed.

Lemma guarded_mono {A} (G : Prop) (I J : A → Prop) (m : Outcome A) :
  guarded G I m → (∀ a, I a → J a) → guarded G J m.
Proof. destruct m as [a|a|[]]; simpl; auto. Qed.

Lemma guarded_Ok {A} (G : Prop) (I : A → Prop) (m : Outcome A) (a : A) :
  guarded G I m → m = Ok a → I a.
Proof. by intros H ->. Qed.

Lemma guarded_total {A} (G : Prop) (I : A → Prop) (m : Outcome A) :
  guarded G I m → ¬ G → ∃ a, m = Ok a ∧ I a.
Proof. destruct m as [a|a|[]]; simpl; intros H HG; try done. by exists a. Qed.

(** Invariant rule of the [for] loop. *)
Lemma for_loop_guarded {State} (G : Prop) (I : nat → State → Prop)
    (count from : nat) (body : nat → State → Outcome State) (s : State) :
  I from s →
  (∀ k s, from ≤ k < from + count → I k s → guarded G (I (S k)) (body k s)) →
  guarded G (I (from + count)) (for_loop count from body s).
Proof.
  revert from s. induction count as [|count IH]; intros from s Hs Hbody; simpl.
  - by rewrite Nat.add_0_r.
  - eapply guarded_bind.
    + apply Hbody; [lia | done].
    + intros s' Hs'. replace (from + S count) with (S from + count) by lia.
      apply IH; [done |]. intros k s'' Hk. apply Hbody. lia.
Qed.

(** ** Views *)

Lemma used_elements_length_le (o : Document_Word_List) (i : nat) :
  length (used_elements o i) ≤ length_of o i.
Proof. unfold used_elements. rewrite length_take. lia. Qed.

Lemma used_elements_length (o : Document_Word_List) (i : nat) :
  length_of o i ≤ length (array_of o i) →
  length (used_elements o i) = length_of o i.
Proof. unfold used_elements. rewrite length_take. lia. Qed.

Lemma used_elements_nil (o : Document_Word_List) (i : nat) :
  length_of o i = 0 → used_elements o i = [].
Proof. unfold used_elements. by intros ->. Qed.

Lemma Layout_array_length (o : Document_Word_List) (i : nat) :
  Layout o → i < o.(number_of_arrays) → length (array_of o i) = o.(max_array_length).
Proof.
  intros (_ & _ & Hdata & Harrays & _) Hi. unfold array_of.
  destruct (lookup_lt_is_Some_2 o.(data) i) as [array Harray]; [lia |].
  rewrite Harray. simpl. by eapply (Forall_lookup_1 _ _ _ _ Harrays).
Qed.

Lemma length_of_outside (o : Document_Word_List) (i : nat) :
  Layout o → o.(number_of_arrays) ≤ i → length_of o i = 0.
Proof.
  intros (_ & _ & _ & _ & Hlengths) Hi. unfold length_of.
  rewrite lookup_ge_None_2; [done | lia].
Qed.

Lemma Valid_length_of (o : Document_Word_List) (i : nat) :
  Valid o → length_of o i ≤ o.(max_array_length).
Proof.
  intros [HL (_ & Hle & _)]. unfold length_of.
  destruct (o.(arrays_lengths) !! i) as [used|] eqn:E; simpl; [| lia].
  by eapply (Forall_lookup_1 _ _ _ _ Hle).
Qed.

Lemma Valid_unused (o : Document_Word_List) (i : nat) :
  Valid o → o.(next_free_array) ≤ i → length_of o i = 0.
Proof.
  intros [HL (_ & _ & Hz)] Hi. unfold length_of.
  destruct (o.(arrays_lengths) !! i) as [used|] eqn:E; simpl; [| done].
  apply (Forall_lookup_1 _ _ (i - o.(next_free_array)) _ Hz).
  rewrite lookup_drop. rewrite <- E. f_equal. lia.
Qed.

Lemma used_elements_lookup (o : Document_Word_List) (i : nat) (v : N) :
  v ∈ used_elements o i ↔ ∃ a, a < length_of o i ∧ array_of o i !! a = Some v.
Proof.
  unfold used_elements. rewrite list_elem_of_lookup. split.
  - intros [a Ha]. exists a. apply lookup_take_Some in Ha as [Ha Hlt]. done.
  - intros (a & Hlt & Ha). exists a. by rewrite lookup_take_lt.
Qed.

Lemma take_S_insert {A} (l : list A) (n : nat) (x : A) :
  n < length l → take (S n) (<[n := x]> l) = take n l ++ [x].
Proof.
  revert n. induction l as [|y l IH]; intros [|n] Hn; simpl in *; try lia.
  - by rewrite take_0.
  - f_equal. apply IH. lia.
Qed.

Lemma used_elements_other (r : Document_Word_List) (i j : nat)
    (array : list N) (used : nat) :
  i ≠ j →
  used_elements
    (set_arrays_lengths (<[i := used]> r.(arrays_lengths))
       (set_data (<[i := array]> r.(data)) r)) j
  = used_elements r j.
Proof.
  intros Hij. unfold used_elements, length_of, array_of; simpl.
  by rewrite !list_lookup_insert_ne.
Qed.

Lemma length_of_other (r : Document_Word_List) (i j : nat)
    (array : list N) (used : nat) :
  i ≠ j →
  length_of
    (set_arrays_lengths (<[i := used]> r.(arrays_lengths))
       (set_data (<[i := array]> r.(data)) r)) j
  = length_of r j.
Proof.
  intros Hij. unfold length_of; simpl. by rewrite list_lookup_insert_ne.
Qed.

Lemma used_elements_append (r : Document_Word_List) (i : nat) (y : N) :
  i < length r.(data) → i < length r.(arrays_lengths) →
  length_of r i < length (array_of r i) →
  used_elements
    (set_arrays_lengths (<[i := S (length_of r i)]> r.(arrays_lengths))
       (set_data (<[i := <[length_of r i := y]> (array_of r i)]> r.(data)) r)) i
  = used_elements r i ++ [y].
Proof.
  intros Hd Hl Hused. unfold used_elements, length_of, array_of in *.
  simpl. rewrite !list_lookup_insert_eq by done. simpl.
  by rewrite take_S_insert.
Qed.

Lemma NoDup_subset_length (l k : list N) :
  NoDup l → (∀ v, v ∈ l → v ∈ k) → length l ≤ length k.
Proof. intros Hl Hsub. by apply submseteq_length, NoDup_submseteq. Qed.

(** ** The loops of the intersection *)

Section Loops.

Variable fresh : nat → bool.
Variable object : Document_Word_List.
Variable query : list N.
Variable data_length : nat.

Hypothesis object_valid : Valid object.
Hypothesis query_block : data_length ≤ length query.

Abbreviation Within := (Within object query data_length).
Abbreviation Common := (Common object query data_length).
Abbreviation Between := (Between object query data_length).
Abbreviation matched := (matched object query data_length).
Abbreviation Overrun := (Overrun object query data_length).
Abbreviation Addressable := (Addressable object query data_length).

Lemma grow_multiple_guard_Within (i i2 i3 : nat) (y : N) (st : Loop_State) :
  matched i y → Within i i2 i3 st → Within i i2 i3 (grow_multiple_guard fresh y st).
Proof.
  intros Hy HW. unfold grow_multiple_guard.
  destruct (N.ltb_spec (N.of_nat st.(size_multiple_guard)) y) as [Hlt|Hge]; [| done].
  destruct HW as [HC Hnd Hsound Hmarks Hexact Hcomplete].
  destruct HC as [Hshape Hlay Hlens Hguard Hsize Hsmall Hdone Hunt].
  assert (¬ Addressable) as Hna.
  { intros HA. specialize (HA i y Hy). lia. }
  assert (∀ k, k < st.(size_multiple_guard) →
    REALLOC fresh st.(multiple_guard) (st.(size_multiple_guard) + multiple_guard_realloc_step)
      !! k = st.(multiple_guard) !! k) as Hkeep.
  { intros k Hk. unfold REALLOC. rewrite take_ge by lia.
    rewrite lookup_app_l by lia. done. }
  split; simpl; try done.
  - split; simpl; try done.
    + unfold REALLOC. rewrite length_app, length_take, length_fmap, length_seq. lia.
    + lia.
  - intros v Hv. specialize (Hmarks v Hv). rewrite Hkeep; [done |].
    apply lookup_lt_Some in Hmarks. lia.
Qed.

Lemma add_to_result_guarded (i i2 i3 : nat) (y : N) (st : Loop_State) :
  i < object.(number_of_arrays) → matched i y → Within i i2 i3 st →
  guarded Overrun
    (λ st', Within i i2 i3 st' ∧
            (Addressable → y ∈ used_elements st'.(intersection_result) i))
    (add_to_result i y st).
Proof.
  intros Hi Hy HW.
  pose proof HW as [HC Hnd Hsound Hmarks Hexact Hcomplete].
  pose proof HC as [Hshape Hlay Hlens Hguard Hsize Hsmall Hdone Hunt].
  unfold add_to_result, load.
  destruct (st.(multiple_guard) !! N.to_nat y) as [[|]|] eqn:Hseen; simpl.
  - split; [done |].
    intros HA. destruct (Hexact HA _ Hseen) as (v & Hv & Heq).
    by apply N2Nat.inj in Heq as <-.
  - set (r := st.(intersection_result)) in *.
    destruct Hshape as (Hn & Hm & Hnext & Hflag).
    pose proof Hlay as (_ & _ & Hdata & Harrays & Hlengths).
    assert (i < r.(number_of_arrays)) as Hi' by lia.
    assert (r.(arrays_lengths) !! i = Some (length_of r i)) as Hused.
    { unfold length_of.
      destruct (lookup_lt_is_Some_2 r.(arrays_lengths) i) as [u Hu]; [lia |]. by rewrite Hu. }
    assert (r.(data) !! i = Some (array_of r i)) as Harray.
    { unfold array_of.
      destruct (lookup_lt_is_Some_2 r.(data) i) as [a Ha]; [lia |]. by rewrite Ha. }
    pose proof (Layout_array_length _ _ Hlay Hi') as Harray_len.
    assert (y ∉ used_elements r i) as Hnew.
    { intros Hin. apply Hmarks in Hin. congruence. }
    assert (length_of r i < r.(max_array_length)) as Hroom.
    { assert (length (y :: used_elements r i) ≤ length (used_elements object i)) as Hle.
      { apply NoDup_subset_length; [by constructor |].
        intros v [->|Hv]%elem_of_cons; [apply Hy | by apply Hsound]. }
      simpl in Hle. rewrite used_elements_length in Hle
        by (rewrite Harray_len; apply Hlens).
      pose proof (used_elements_length_le object i).
      pose proof (Valid_length_of _ i object_valid). lia. }
    rewrite Hused, Harray. simpl.
    unfold store. rewrite !bool_decide_eq_true_2; simpl.
    2: { rewrite Harray_len. lia. }
    2: { lia. }
    2: { by apply lookup_lt_Some in Hseen. }
    assert (Within i i2 i3
      {| intersection_result :=
           set_arrays_lengths (<[i := S (length_of r i)]> r.(arrays_lengths))
             (set_data (<[i := <[length_of r i := y]> (array_of r i)]> r.(data)) r);
         size_multiple_guard := st.(size_multiple_guard);
         multiple_guard := <[N.to_nat y := true]> st.(multiple_guard) |}) as HW'.
    { split; simpl.
      - split; simpl.
        + done.
        + destruct Hlay as (Hn0 & Hm0 & _).
          unfold Layout; simpl. rewrite !length_insert. split_and!; try done.
          apply Forall_insert; [done |]. by rewrite length_insert.
        + intros j. destruct (decide (i = j)) as [<-|Hne].
          * unfold length_of at 1; simpl. rewrite list_lookup_insert_eq by lia. simpl. lia.
          * rewrite length_of_other by done. apply Hlens.
        + by rewrite length_insert.
        + done.
        + done.
        + intros j Hj. unfold Slot_Done. rewrite used_elements_other by lia.
          by apply Hdone.
        + intros j Hj. rewrite length_of_other by lia. by apply Hunt.
      - rewrite used_elements_append by lia.
        apply NoDup_app. split; [done |]. split; [| apply NoDup_singleton].
        intros v Hv ->%list_elem_of_singleton. done.
      - rewrite used_elements_append by lia.
        intros v [Hv| ->%list_elem_of_singleton]%elem_of_app; [by apply Hsound | done].
      - rewrite used_elements_append by lia.
        intros v [Hv| ->%list_elem_of_singleton]%elem_of_app.
        + destruct (decide (N.to_nat y = N.to_nat v)) as [He|Hne].
          * rewrite He. apply list_lookup_insert_eq. rewrite <- He.
            by apply lookup_lt_Some in Hseen.
          * rewrite list_lookup_insert_ne by done. by apply Hmarks.
        + apply list_lookup_insert_eq. by apply lookup_lt_Some in Hseen.
      - rewrite used_elements_append by lia.
        intros HA k Hk. destruct (decide (N.to_nat y = k)) as [He|Hne].
        + exists y. split; [| done]. apply elem_of_app. right. by apply list_elem_of_singleton.
        + rewrite list_lookup_insert_ne in Hk by done.
          destruct (Hexact HA k Hk) as (v & Hv & Hvk).
          exists v. split; [| done]. apply elem_of_app. by left.
      - rewrite used_elements_append by lia.
        intros HA a b v Hab Ha Hb Hav Hbv. apply elem_of_app. left.
        by eapply Hcomplete. }
    split; [done |]. intros _. rewrite used_elements_append by lia.
    apply elem_of_app. right. by apply list_elem_of_singleton.
  - exists i, y. split; [done |].
    apply lookup_ge_None_1 in Hseen. unfold multiple_guard_realloc_step in *. lia.
Qed.

Lemma compare_elements_guarded (i i2 i3 : nat) (st : Loop_State) :
  i < object.(number_of_arrays) → i2 < length_of object i → i3 < data_length →
  Within i i2 i3 st →
  guarded Overrun (Within i i2 (S i3)) (compare_elements fresh object query i i2 i3 st).
Proof.
  intros Hi Hi2 Hi3 HW.
  pose proof object_valid as [HL HI].
  pose proof (Layout_array_length _ _ HL Hi) as Harray_len.
  pose proof (Valid_length_of _ i object_valid) as Hlen_i.
  assert (object.(data) !! i = Some (array_of object i)) as Harray.
  { unfold array_of. destruct HL as (_ & _ & Hdata & _).
    destruct (lookup_lt_is_Some_2 object.(data) i) as [a Ha]; [lia |]. by rewrite Ha. }
  destruct (lookup_lt_is_Some_2 (array_of object i) i2) as [x Hx]; [lia |].
  destruct (lookup_lt_is_Some_2 query i3) as [y Hy]; [lia |].
  unfold compare_elements, load. rewrite Harray. simpl. rewrite Hx. simpl.
  rewrite Hy. simpl.
  destruct (N.eqb_spec x y) as [->|Hne].
  - assert (matched i y) as Hm.
    { split.
      - apply used_elements_lookup. by exists i2.
      - apply list_elem_of_lookup. exists i3. by rewrite lookup_take_lt. }
    eapply guarded_mono.
    { apply (add_to_result_guarded i i2 i3); [done | done |].
      by apply grow_multiple_guard_Within. }
    intros st' [[HC Hnd Hsound Hmarks Hexact Hcomplete] Hin]. split; try done.
    intros HA a b v [Hlt|[-> Hb3]] Ha Hb Hav Hbv.
    + eapply Hcomplete; eauto.
    + destruct (decide (b = i3)) as [->|Hb'].
      * assert (v = y) as -> by congruence. by apply Hin.
      * eapply (Hcomplete HA i2 b); eauto. right. split; [done | lia].
  - simpl. destruct HW as [HC Hnd Hsound Hmarks Hexact Hcomplete]. split; try done.
    intros HA a b v [Hlt|[-> Hb3]] Ha Hb Hav Hbv.
    + eapply Hcomplete; eauto.
    + destruct (decide (b = i3)) as [->|Hb'].
      * congruence.
      * eapply (Hcomplete HA i2 b); eauto. right. split; [done | lia].
Qed.

Lemma compare_with_data_guarded (i i2 : nat) (st : Loop_State) :
  i < object.(number_of_arrays) → i2 < length_of object i →
  Within i i2 0 st →
  guarded Overrun (Within i (S i2) 0) (compare_with_data fresh object query data_length i i2 st).
Proof.
  intros Hi Hi2 HW. unfold compare_with_data.
  eapply guarded_mono.
  { apply (for_loop_guarded Overrun (λ i3, Within i i2 i3)); [done |].
    intros k s Hk Hs. apply compare_elements_guarded; [done | done | lia | done]. }
  simpl. intros st' [HC Hnd Hsound Hmarks Hexact Hcomplete]. split; try done.
  intros HA a b v [Hlt|[-> Hb3]] Ha Hb Hav Hbv; [| lia].
  apply (Hcomplete HA a b); try done.
  destruct (decide (a = i2)) as [->|Hne]; [right | left]; lia.
Qed.

Lemma intersect_array_guarded (i : nat) (st : Loop_State) :
  i < object.(number_of_arrays) →
  Between i st →
  guarded Overrun (Between (S i)) (intersect_array fresh object query data_length i st).
Proof.
  intros Hi [HC Hzero].
  pose proof HC as [Hshape Hlay Hlens Hguard Hsize Hsmall Hdone Hunt].
  pose proof object_valid as [HL HI].
  unfold intersect_array, load.
  assert (object.(arrays_lengths) !! i = Some (length_of object i)) as Hused.
  { unfold length_of. destruct HL as (_ & _ & _ & _ & Hlengths).
    destruct (lookup_lt_is_Some_2 object.(arrays_lengths) i) as [u Hu]; [lia |].
    by rewrite Hu. }
  rewrite Hused. simpl.
  eapply guarded_mono.
  { apply (for_loop_guarded Overrun (λ i2, Within i i2 0)).
    - split; simpl.
      + split; simpl; try done. by rewrite length_replicate.
      + rewrite used_elements_nil by done. constructor.
      + rewrite used_elements_nil by done. by intros v ?%elem_of_nil.
      + rewrite used_elements_nil by done. by intros v ?%elem_of_nil.
      + intros _ k Hk. apply lookup_replicate in Hk as [? _]. done.
      + intros _ a b v Hab. lia.
    - intros k s Hk Hs. apply compare_with_data_guarded; [done | lia | done]. }
  simpl. intros st' [HC' Hnd Hsound Hmarks Hexact Hcomplete].
  destruct HC' as [Hshape' Hlay' Hlens' Hguard' Hsize' Hsmall' Hdone' Hunt'].
  split.
  - split; try done.
    + intros j Hj. destruct (decide (j = i)) as [->|Hne]; [| apply Hdone'; lia].
      split; [done |]. split; [done |].
      intros HA v [Hv Hq]. apply used_elements_lookup in Hv as (a & Ha & Hav).
      apply list_elem_of_lookup in Hq as [b Hb].
      apply lookup_take_Some in Hb as [Hb Hlt].
      apply (Hcomplete HA a b); try done. left. lia.
    + intros j Hj. apply Hunt'. lia.
  - apply Hunt'. lia.
Qed.

Lemma intersection_loops_guarded (st : Loop_State) :
  Between 0 st →
  guarded Overrun (λ st', Post object query data_length st'.(intersection_result))
    (intersection_loops fresh object query data_length st).
Proof.
  intros Hst. unfold intersection_loops.
  eapply guarded_mono.
  { apply (for_loop_guarded Overrun Between); [done |].
    intros k s Hk Hs. apply intersect_array_guarded; [lia | done]. }
  simpl. intros st' [[Hshape Hlay Hlens Hguard Hsize Hsmall Hdone Hunt] _].
  split; [done |]. split; [done |]. split; [done |].
  intros j. destruct (decide (j < object.(number_of_arrays))) as [Hj|Hj]; [by apply Hdone |].
  destruct Hshape as (Hn & _).
  assert (used_elements st'.(intersection_result) j = []) as Hnil.
  { apply used_elements_nil, length_of_outside; [done | lia]. }
  unfold Slot_Done. rewrite Hnil. split; [constructor |].
  split; [by intros v ?%elem_of_nil |].
  intros _ v [Hv _]. pose proof object_valid as [HL _].
  rewrite (used_elements_nil object j) in Hv; [done |].
  apply length_of_outside; [done | lia].
Qed.

End Loops.

(** Evaluation of an assertion, of a bind on a returned value. *)
Ltac step_assert := cbn [ASSERT_MSG mbind Outcome_bind negb].

(** ** [Create_Document_Word_List] *)

Lemma Create_Ok (n m : nat) :
  0 < n → 0 < m →
  Create_Document_Word_List n m =
    Ok {| data := replicate n (replicate m 0%N);
          arrays_lengths := replicate n 0;
          max_array_length := m;
          number_of_arrays := n;
          next_free_array := 0;
          intersection_data := false |}.
Proof.
  intros Hn Hm. unfold Create_Document_Word_List.
  destruct n; [lia |]. destruct m; [lia |]. done.
Qed.

Lemma Create_inv (n m : nat) (r : Document_Word_List) :
  Create_Document_Word_List n m = Ok r → 0 < n ∧ 0 < m.
Proof.
  unfold Create_Document_Word_List. destruct n; [done |]. destruct m; [done |].
  intros _. lia.
Qed.

Lemma length_of_replicate (o : Document_Word_List) (n i : nat) :
  o.(arrays_lengths) = replicate n 0 → length_of o i = 0.
Proof.
  unfold length_of. intros ->.
  destruct (replicate n 0 !! i) as [u|] eqn:E; [| done].
  by apply lookup_replicate in E as [-> _].
Qed.

Lemma Create_Valid (n m : nat) (r : Document_Word_List) :
  Create_Document_Word_List n m = Ok r →
  Valid r ∧ r.(next_free_array) = 0 ∧ ∀ i, length_of r i = 0.
Proof.
  intros H. destruct (Create_inv _ _ _ H) as [Hn Hm].
  rewrite Create_Ok in H by done. injection H as <-.
  split; [| split; [done | by intros i; eapply length_of_replicate]].
  split.
  - unfold Layout; simpl. rewrite !length_replicate. split_and!; try done.
    apply Forall_replicate. by rewrite length_replicate.
  - unfold Invariants; simpl. split_and!; [lia | |].
    + apply Forall_replicate. lia.
    + rewrite drop_0. by apply Forall_replicate.
Qed.

(** ** [Intersect_Data_With_Document_Word_List] *)

Lemma Intersect_inv (MODE : Z) (fresh : nat → bool) (object : option Document_Word_List)
    (data : option (list N)) (data_length : nat) (mode : Z) (r : Document_Word_List) :
  Intersect_Data_With_Document_Word_List MODE fresh object data data_length mode = Ok r →
  ∃ o query, object = Some o ∧ data = Some query ∧
    0 < data_length ∧ mode = MODE ∧ data_length ≤ o.(max_array_length).
Proof.
  unfold Intersect_Data_With_Document_Word_List.
  destruct object as [o|]; [| done]. destruct data as [query|]; [| done].
  destruct (Nat.eqb_spec data_length 0) as [->|Hpos]; [done |]. step_assert.
  destruct (Z.eqb_spec mode MODE) as [->|Hne]; [| done]. step_assert.
  destruct (Nat.leb_spec data_length o.(max_array_length)); [| done].
  intros _. exists o, query. split_and!; try done. lia.
Qed.

Lemma Intersect_guarded (MODE : Z) (fresh : nat → bool) (object : Document_Word_List)
    (query : list N) (data_length : nat) :
  Valid object → 0 < data_length → data_length ≤ object.(max_array_length) →
  data_length ≤ length query →
  guarded (Overrun object query data_length) (Post object query data_length)
    (Intersect_Data_With_Document_Word_List MODE fresh (Some object) (Some query)
       data_length MODE).
Proof.
  intros Hvalid Hpos Hmax Hquery. pose proof Hvalid as [(Hn & Hm & _) _].
  unfold Intersect_Data_With_Document_Word_List.
  destruct (Nat.eqb_spec data_length 0) as [->|_]; [lia |]. step_assert.
  rewrite Z.eqb_refl. step_assert.
  destruct (Nat.leb_spec data_length object.(max_array_length)); [| lia]. step_assert.
  rewrite Create_Ok by done. step_assert.
  eapply guarded_bind.
  { apply intersection_loops_guarded; [done | done |].
    split; [| by eapply length_of_replicate].
    split; cbn [intersection_result size_multiple_guard multiple_guard]; try done.
    - unfold Layout; simpl. rewrite !length_replicate. split_and!; try done.
      apply Forall_replicate. by rewrite length_replicate.
    - intros j. erewrite length_of_replicate by done. lia.
    - intros j Hj. lia.
    - intros j Hj. by eapply length_of_replicate. }
  by intros st' Hpost.
Qed.

(** What the result of a call that returns satisfies. *)
Lemma Intersect_Post (MODE : Z) (fresh : nat → bool) (object : Document_Word_List)
    (query : list N) (data_length : nat) (mode : Z) (r : Document_Word_List) :
  Valid object → data_length ≤ length query →
  Intersect_Data_With_Document_Word_List MODE fresh (Some object) (Some query)
    data_length mode = Ok r →
  Post object query data_length r.
Proof.
  intros Hvalid Hquery Hr.
  destruct (Intersect_inv _ _ _ _ _ _ _ Hr) as (o & q & [= <-] & [= <-] & Hpos & -> & Hmax).
  by eapply guarded_Ok; [apply Intersect_guarded |].
Qed.

(** A call on addressable values returns. *)
Lemma Intersect_total (MODE : Z) (fresh : nat → bool) (object : Document_Word_List)
    (query : list N) (data_length : nat) :
  Valid object → 0 < data_length → data_length ≤ object.(max_array_length) →
  data_length ≤ length query →
  Addressable object query data_length →
  ∃ r, Intersect_Data_With_Document_Word_List MODE fresh (Some object) (Some query)
         data_length MODE = Ok r ∧ Post object query data_length r.
Proof.
  intros Hvalid Hpos Hmax Hquery HA.
  eapply guarded_total; [by apply Intersect_guarded |].
  intros (i & v & Hm & Hv). specialize (HA i v Hm). lia.
Qed.

Lemma Post_length_of (object : Document_Word_List) (query : list N) (data_length : nat)
    (r : Document_Word_List) (i : nat) :
  Valid object → Post object query data_length r →
  length_of r i ≤ length_of object i ∧ length_of r i ≤ data_length.
Proof.
  intros Hvalid ((Hn & Hm & _) & Hlay & Hlens & Hdone).
  destruct (decide (i < r.(number_of_arrays))) as [Hi|Hi].
  - destruct (Hdone i) as (Hnd & Hsound & _).
    rewrite <- (used_elements_length r i)
      by (rewrite Layout_array_length by done; apply Hlens).
    split.
    + etrans; [| apply (used_elements_length_le object i)].
      apply NoDup_subset_length; [done |]. intros v Hv. by apply Hsound.
    + etrans; [apply (NoDup_subset_length _ (take data_length query)); [done |] |].
      * intros v Hv. by apply Hsound.
      * rewrite length_take. lia.
  - rewrite (length_of_outside r i) by (done || lia). lia.
Qed.

Lemma Post_Valid (object : Document_Word_List) (query : list N) (data_length : nat)
    (r : Document_Word_List) :
  Valid object → Post object query data_length r → Valid r.
Proof.
  intros Hvalid HP. pose proof HP as ((Hn & Hm & Hnext & _) & Hlay & Hlens & Hdone).
  split; [done |]. pose proof Hvalid as [_ (Hcursor & _)].
  unfold Invariants. split_and!.
  - lia.
  - apply Forall_lookup_2. intros i u Hu.
    specialize (Hlens i). unfold length_of in Hlens. by rewrite Hu in Hlens.
  - apply Forall_lookup_2. intros i u Hu. rewrite lookup_drop in Hu.
    pose proof (Post_length_of _ _ _ _ (r.(next_free_array) + i) Hvalid HP) as [Hle _].
    rewrite (Valid_unused object) in Hle by (done || lia).
    unfold length_of in Hle. rewrite Hu in Hle. simpl in Hle. lia.
Qed.

(** ** The scenarios *)

Example scenario_built : scenario = Some scenario_container.
Proof. reflexivity. Qed.

Example single_built (v : N) : build 1 1 [[v]] = Some (single v).
Proof. reflexivity. Qed.

Example scenario_container_Valid : Valid scenario_container.
Proof. compute_done. Qed.

Example single_Valid (v : N) : Valid (single v).
Proof. repeat split; simpl; repeat constructor. Qed.

Example scenario_intersection :
  ∃ r, Intersect_Data_With_Document_Word_List 0 cleared scenario (Some scenario_query) 3 0
       = Ok r ∧
       used_elements r 0 = [1; 2]%N ∧ used_elements r 1 = [4]%N.
Proof. eexists. split; [vm_compute; reflexivity |]. split; reflexivity. Qed.

(** ** [Append_Data_To_Document_Word_List] *)

Lemma Append_assert_unchanged (object : option Document_Word_List)
    (new_data : option (list N)) (data_length : nat) (a : Assertion)
    (object' : option Document_Word_List) :
  Append_Data_To_Document_Word_List object new_data data_length = (Assert_failed a, object') →
  object' = object.
Proof.
  unfold Append_Data_To_Document_Word_List, memcpy, store.
  repeat (case_match; simplify_eq/=; try done); congruence.
Qed.

Lemma Append_Valid (o : Document_Word_List) (new_data : option (list N))
    (data_length : nat) (outcome : Outcome unit) (object' : option Document_Word_List) :
  Valid o →
  Append_Data_To_Document_Word_List (Some o) new_data data_length = (outcome, object') →
  ∃ o', object' = Some o' ∧ Valid o'.
Proof.
  intros Hvalid. pose proof Hvalid as [(Hn & Hm & Hdata & Harrays & Hlengths) (Hcur & Hle & Hz)].
  unfold Append_Data_To_Document_Word_List.
  destruct new_data as [src|]; [| intros [= <- <-]; eauto].
  destruct (Nat.eqb_spec data_length 0) as [->|Hpos]; [intros [= <- <-]; eauto |].
  destruct (Nat.leb_spec data_length o.(max_array_length)) as [Hlen|Hlen]; simpl;
    [| intros [= <- <-]; eauto].
  destruct (Nat.ltb_spec o.(next_free_array) o.(number_of_arrays)) as [Hfree|Hfree]; simpl;
    [| intros [= <- <-]; eauto].
  destruct (o.(data) !! o.(next_free_array)) as [dest|] eqn:Hdest; [| intros [= <- <-]; eauto].
  pose proof (Forall_lookup_1 _ _ _ _ Harrays Hdest) as Hdest_len. simpl in Hdest_len.
  unfold memcpy, store.
  case_bool_decide; [intros [= <- <-]; eauto |].
  case_bool_decide; [intros [= <- <-]; eauto |].
  simpl. rewrite bool_decide_eq_true_2 by lia.
  intros [= <- <-]. eexists. split; [done |]. split.
  - unfold Layout; simpl. rewrite !length_insert. split_and!; try done.
    apply Forall_insert; [done |].
    rewrite length_app, length_take, length_drop. lia.
  - unfold Invariants; simpl. split_and!.
    + lia.
    + by apply Forall_insert.
    + rewrite drop_insert_lt by lia.
      replace (S o.(next_free_array)) with (o.(next_free_array) + 1) by lia.
      rewrite <- drop_drop. by apply Forall_drop.
Qed.

(** A successful append: the first [data_length] values of [new_data] are the
    elements in use of the array at the cursor, and the cursor advances. *)
Lemma Append_Ok (o : Document_Word_List) (new_data : list N) (data_length : nat) :
  Valid o → 0 < data_length ≤ o.(max_array_length) → data_length ≤ length new_data →
  o.(next_free_array) < o.(number_of_arrays) →
  ∃ o', Append_Data_To_Document_Word_List (Some o) (Some new_data) data_length
          = (Ok (), Some o') ∧
        Valid o' ∧
        o'.(next_free_array) = S o.(next_free_array) ∧
        o'.(number_of_arrays) = o.(number_of_arrays) ∧
        o'.(max_array_length) = o.(max_array_length) ∧
        used_elements o' o.(next_free_array) = take data_length new_data.
Proof.
  intros Hvalid [Hpos Hmax] Hsrc Hfree.
  pose proof Hvalid as [(Hn & Hm & Hdata & Harrays & Hlengths) _].
  destruct (Append_Data_To_Document_Word_List (Some o) (Some new_data) data_length)
    as [outcome object'] eqn:Happend.
  destruct (Append_Valid _ _ _ _ _ Hvalid Happend) as (o' & -> & Hvalid').
  revert Happend. unfold Append_Data_To_Document_Word_List.
  destruct (Nat.eqb_spec data_length 0) as [->|_]; [lia |].
  destruct (Nat.leb_spec data_length o.(max_array_length)); [| lia].
  destruct (Nat.ltb_spec o.(next_free_array) o.(number_of_arrays)); [| lia].
  cbn [negb].
  destruct (lookup_lt_is_Some_2 o.(data) o.(next_free_array)) as [dest Hdest]; [lia |].
  pose proof (Forall_lookup_1 _ _ _ _ Harrays Hdest) as Hdest_len. simpl in Hdest_len.
  rewrite Hdest. unfold memcpy, store.
  rewrite (bool_decide_eq_false_2 (length new_data < data_length)) by lia.
  rewrite (bool_decide_eq_false_2 (length dest < data_length)) by lia.
  cbn [set_data arrays_lengths next_free_array].
  rewrite bool_decide_eq_true_2 by lia.
  intros [= <- <-]. eexists. split; [done |]. split; [done |].
  split_and!; try done.
  unfold used_elements, length_of, array_of; simpl.
  rewrite !list_lookup_insert_eq by lia. simpl.
  rewrite take_app_le by (rewrite length_take; lia).
  rewrite take_take. f_equal. lia.
Qed.

(** After one append for each array, the cursor is the number of arrays. *)
Lemma build_cursor (n m : nat) (arrays : list (list N)) :
  0 < n → 0 < m → length arrays ≤ n →
  Forall (λ array, 0 < length array ≤ m) arrays →
  ∃ o, build n m arrays = Some o ∧ Valid o ∧
       o.(next_free_array) = length arrays ∧
       o.(number_of_arrays) = n ∧ o.(max_array_length) = m.
Proof.
  intros Hn Hm. induction arrays as [|array arrays IH] using rev_ind; intros Hlen Hall.
  - unfold build. rewrite Create_Ok by done. cbn [foldl]. eexists. split; [done |].
    split; [| done]. by eapply Create_Valid, Create_Ok.
  - rewrite length_app in Hlen. simpl in Hlen.
    apply Forall_app in Hall as [Hall Harray]. apply Forall_inv in Harray.
    destruct IH as (o & Ho & Hvalid & Hcur & Hnum & Hmax); [lia | done |].
    unfold build in *. rewrite foldl_app, Ho. cbn [foldl].
    destruct (Append_Ok o array (length array) Hvalid)
      as (o' & -> & Hvalid' & Hcur' & Hnum' & Hmax' & _); [lia | lia | lia |].
    exists o'. simpl. rewrite length_app. simpl. split_and!; try done; lia.
Qed.

(** The loops contain no assertion. *)
Lemma for_loop_no_assert {State} (count from : nat)
    (body : nat → State → Outcome State) (s : State) (a : Assertion) :
  (∀ k s, body k s ≠ Assert_failed a) → for_loop count from body s ≠ Assert_failed a.
Proof.
  intros Hbody. revert from s. induction count as [|count IH]; intros from s; simpl; [done |].
  destruct (body from s) as [s'|a'|b] eqn:E; simpl; [apply IH | | done].
  intros [= ->]. by eapply Hbody.
Qed.

Lemma bind_no_assert {A B} (m : Outcome A) (k : A → Outcome B) (a : Assertion) :
  m ≠ Assert_failed a → (∀ x, k x ≠ Assert_failed a) → m ≫= k ≠ Assert_failed a.
Proof. destruct m as [x|a'|b]; simpl; [auto | | done]. intros H _ [= ->]. done. Qed.

Lemma load_no_assert {A} (b : Block) (block : list A) (i : nat) (a : Assertion) :
  load b block i ≠ Assert_failed a.
Proof. unfold load. by case_match. Qed.

Lemma store_no_assert {A} (b : Block) (block : list A) (i : nat) (x : A) (a : Assertion) :
  store b block i x ≠ Assert_failed a.
Proof. unfold store. by case_match. Qed.

Lemma intersection_loops_no_assert (fresh : nat → bool) (object : Document_Word_List)
    (query : list N) (data_length : nat) (st : Loop_State) (a : Assertion) :
  intersection_loops fresh object query data_length st ≠ Assert_failed a.
Proof.
  apply for_loop_no_assert. intros i st1. unfold intersect_array.
  apply bind_no_assert; [apply load_no_assert |]. intros length_i.
  apply for_loop_no_assert. intros i2 st2.
  apply for_loop_no_assert. intros i3 st3. unfold compare_elements.
  repeat (apply bind_no_assert; [apply load_no_assert |]; intros ?).
  case_match; [| done]. unfold add_to_result.
  apply bind_no_assert; [apply load_no_assert |]. intros [|]; [done |].
  repeat (apply bind_no_assert; [apply load_no_assert || apply store_no_assert |]; intros ?).
  done.
Qed.

(** ** Claims about the container and the intersection of the source *)

Lemma Addressable_small (object : Document_Word_List) (query : list N) (data_length : nat) :
  (∀ v, v ∈ take data_length query → (v < 1000)%N) →
  Addressable object query data_length.
Proof. intros Hsmall i v [_ Hv]. by apply Hsmall. Qed.

Lemma Addressable_empty (object : Document_Word_List) (query : list N) (data_length : nat) :
  (∀ i, length_of object i = 0) → Addressable object query data_length.
Proof.
  intros Hempty i v [Hv _]. rewrite used_elements_nil in Hv by done.
  by apply elem_of_nil in Hv.
Qed.

(** On addressable values the result slot is the intersection of the array
    and the query, as sets. *)
Lemma intersection_of_addressable_values (MODE : Z) (fresh : nat → bool)
    (object : Document_Word_List) (query : list N) (data_length : nat) :
  Valid object → 0 < data_length → data_length ≤ object.(max_array_length) →
  data_length ≤ length query →
  Addressable object query data_length →
  ∃ r, Intersect_Data_With_Document_Word_List MODE fresh (Some object) (Some query)
         data_length MODE = Ok r ∧
       ∀ i v, v ∈ used_elements r i ↔
              v ∈ used_elements object i ∧ v ∈ take data_length query.
Proof.
  intros Hvalid Hpos Hmax Hquery HA.
  destruct (Intersect_total MODE fresh _ _ _ Hvalid Hpos Hmax Hquery HA)
    as (r & Hr & _ & _ & _ & Hdone).
  exists r. split; [done |]. intros i v. destruct (Hdone i) as (_ & Hsound & Hcomplete).
  split; [apply Hsound | by apply Hcomplete].
Qed.

(** C5: the container an intersection call returns has the number of arrays,
    the maximum array length and the cursor of its input, and is flagged as
    intersection data. *)
Theorem intersection_keeps_shape (MODE : Z) (fresh : nat → bool)
    (object : Document_Word_List) (query : list N) (data_length : nat) (mode : Z)
    (r : Document_Word_List) :
  Valid object → data_length ≤ length query →
  Intersect_Data_With_Document_Word_List MODE fresh (Some object) (Some query)
    data_length mode = Ok r →
  r.(number_of_arrays) = object.(number_of_arrays) ∧
  r.(max_array_length) = object.(max_array_length) ∧
  r.(next_free_array) = object.(next_free_array) ∧
  r.(intersection_data) = true.
Proof.
  intros Hvalid Hquery Hr.
  by destruct (Intersect_Post _ _ _ _ _ _ _ Hvalid Hquery Hr) as [Hshape _].
Qed.

Lemma intersection_keeps_shape_witness :
  ∃ r, Intersect_Data_With_Document_Word_List 0 cleared (Some scenario_container)
         (Some scenario_query) 3 0 = Ok r ∧
       r.(number_of_arrays) = 2 ∧ r.(max_array_length) = 5 ∧
       r.(next_free_array) = 2 ∧ r.(intersection_data) = true.
Proof.
  eexists. split; [vm_compute; reflexivity |].
  apply (intersection_keeps_shape 0 cleared scenario_container scenario_query 3 0).
  - compute_done.
  - simpl. lia.
  - vm_compute. reflexivity.
Defined.

(** C4: no value appears twice in a slot of the result of an intersection
    call, whatever the repetitions in the array and in the query. The
    deduplication is scoped to the slot: the pass over an array starts from a
    cleared guard, whatever the marks the guard holds from the arrays before,
    so that (on addressable values) a value matched in a slot is in the result
    of that slot, also when it is in the result of another slot. *)
Theorem intersection_has_no_duplicates (MODE : Z) (fresh : nat → bool)
    (object : Document_Word_List) (query : list N) (data_length : nat) (mode : Z)
    (r : Document_Word_List) :
  Valid object → data_length ≤ length query →
  Intersect_Data_With_Document_Word_List MODE fresh (Some object) (Some query)
    data_length mode = Ok r →
  (∀ i, NoDup (used_elements r i)) ∧
  (∀ i result n marks marks',
     intersect_array fresh object query data_length i
       {| intersection_result := result; size_multiple_guard := n;
          multiple_guard := marks |}
     = intersect_array fresh object query data_length i
       {| intersection_result := result; size_multiple_guard := n;
          multiple_guard := marks' |}) ∧
  (Addressable object query data_length →
   ∀ i v, v ∈ used_elements object i → v ∈ take data_length query →
          v ∈ used_elements r i).
Proof.
  intros Hvalid Hquery Hr.
  destruct (Intersect_Post _ _ _ _ _ _ _ Hvalid Hquery Hr) as (_ & _ & _ & Hdone).
  split_and!; [| done |].
  - intros i. by destruct (Hdone i) as [Hnd _].
  - intros HA i v Hv Hq. destruct (Hdone i) as (_ & _ & Hcomplete). by apply Hcomplete.
Qed.

Lemma intersection_has_no_duplicates_witness :
  ∃ r, Intersect_Data_With_Document_Word_List 0 cleared (Some scenario_container)
         (Some [1; 2; 2; 1; 4]%N) 5 0 = Ok r ∧
       used_elements r 0 = [1; 2]%N ∧
       ∀ i, NoDup (used_elements r i).
Proof.
  eexists. split; [vm_compute; reflexivity |]. split; [reflexivity |].
  refine (proj1 (intersection_has_no_duplicates 0 cleared scenario_container
                   [1; 2; 2; 1; 4]%N 5 0 _ _ _ _)).
  - compute_done.
  - simpl. lia.
  - vm_compute. reflexivity.
Defined.

(** C9: the operations preserve the invariants of the container (the cursor
    is at most the number of arrays, every recorded length is at most the
    maximum array length, every array from the cursor on has length 0) and the
    layout of its blocks; a created container has them with cursor 0 and all
    lengths 0. *)
Theorem operations_preserve_invariants :
  (∀ n m r, Create_Document_Word_List n m = Ok r →
     Valid r ∧ r.(next_free_array) = 0 ∧ ∀ i, length_of r i = 0) ∧
  (∀ o new_data data_length outcome object',
     Valid o →
     Append_Data_To_Document_Word_List (Some o) new_data data_length = (outcome, object') →
     ∃ o', object' = Some o' ∧ Valid o') ∧
  (∀ MODE fresh o query data_length mode r,
     Valid o → data_length ≤ length query →
     Intersect_Data_With_Document_Word_List MODE fresh (Some o) (Some query)
       data_length mode = Ok r →
     Valid r).
Proof.
  split_and!.
  - apply Create_Valid.
  - intros o new_data data_length outcome object'. apply Append_Valid.
  - intros MODE fresh o query data_length mode r Hvalid Hquery Hr.
    eapply Post_Valid; [done |]. by eapply Intersect_Post.
Qed.

Lemma operations_preserve_invariants_witness :
  (∃ r, Create_Document_Word_List 2 5 = Ok r ∧ Valid r) ∧
  (∃ o, (Append_Data_To_Document_Word_List (Some scenario_container)
           (Some [7; 8]%N) 2).2 = Some o ∧ Valid o) ∧
  (∃ r, Intersect_Data_With_Document_Word_List 0 cleared (Some scenario_container)
          (Some scenario_query) 3 0 = Ok r ∧ Valid r).
Proof.
  destruct operations_preserve_invariants as (Hcreate & Happend & Hintersect).
  split_and!.
  - eexists. split; [reflexivity |]. exact (proj1 (Hcreate 2 5 _ eq_refl)).
  - eapply (Happend scenario_container (Some [7; 8]%N) 2); [compute_done |].
    apply surjective_pairing.
  - eexists. split; [vm_compute; reflexivity |].
    apply (Hintersect 0%Z cleared scenario_container scenario_query 3 0%Z).
    + compute_done.
    + simpl. lia.
    + vm_compute. reflexivity.
Defined.

(** C10: in the result of a call that returns (no read or mark has left the
    guard), the length of every slot is at most the length of the input slot,
    at most the length of the query, and at most the maximum array length, so
    that every append has landed in the array of its slot; and when every
    matched value is addressable in the guard as first allocated (in
    particular when the values are below 1000), the call does return. *)
Theorem result_lengths_are_bounded (MODE : Z) (fresh : nat → bool)
    (object : Document_Word_List) (query : list N) (data_length : nat) :
  Valid object → data_length ≤ length query →
  (∀ mode r,
     Intersect_Data_With_Document_Word_List MODE fresh (Some object) (Some query)
       data_length mode = Ok r →
     ∀ i, length_of r i ≤ length_of object i `min` data_length ∧
          length_of r i ≤ r.(max_array_length) ∧
          length (used_elements r i) = length_of r i) ∧
  (0 < data_length ≤ object.(max_array_length) →
   Addressable object query data_length →
   ∃ r, Intersect_Data_With_Document_Word_List MODE fresh (Some object) (Some query)
          data_length MODE = Ok r).
Proof.
  intros Hvalid Hquery. split.
  - intros mode r Hr i.
    pose proof (Intersect_Post _ _ _ _ _ _ _ Hvalid Hquery Hr) as HP.
    destruct (Post_length_of _ _ _ _ i Hvalid HP) as [Hle1 Hle2].
    destruct HP as (_ & Hlay & Hlens & _).
    split_and!; [lia | apply Hlens |].
    destruct (decide (i < r.(number_of_arrays))) as [Hi|Hi].
    + apply used_elements_length. rewrite Layout_array_length by done. apply Hlens.
    + rewrite used_elements_nil, length_of_outside; (done || lia || idtac).
      apply length_of_outside; [done | lia].
  - intros [Hpos Hmax] HA.
    destruct (Intersect_total MODE fresh _ _ _ Hvalid Hpos Hmax Hquery HA) as (r & Hr & _).
    by exists r.
Qed.

Lemma result_lengths_are_bounded_witness :
  ∃ r, Intersect_Data_With_Document_Word_List 0 dirty (Some scenario_container)
         (Some scenario_query) 3 0 = Ok r ∧
       ∀ i, length_of r i ≤ length_of scenario_container i `min` 3 ∧
            length_of r i ≤ r.(max_array_length) ∧
            length (used_elements r i) = length_of r i.
Proof.
  destruct (result_lengths_are_bounded 0 dirty scenario_container scenario_query 3)
    as [Hbounds Hreturns].
  - compute_done.
  - simpl. lia.
  - destruct Hreturns as [r Hr].
    + simpl. lia.
    + apply Addressable_small. intros v Hv. simpl in Hv.
      repeat (apply elem_of_cons in Hv as [->|Hv]; [done |]). by apply elem_of_nil in Hv.
    + exists r. split; [done |]. by apply (Hbounds 0%Z).
Defined.

(** C6: an append of more values than an array holds fails on the assertion
    that stands for [CapacityExceeded]; an append (of a length the container
    accepts) when the cursor has reached the number of arrays fails on the
    assertion that stands for [ContainerFull], and so does the append that
    follows one append for each array of a created container; after a failed
    assertion the container is what it was: data, lengths and cursor. *)
Theorem append_failures_leave_container_unchanged (o : Document_Word_List)
    (new_data : list N) (data_length : nat) :
  (o.(max_array_length) < data_length →
   Append_Data_To_Document_Word_List (Some o) (Some new_data) data_length
     = (Assert_failed New_data_is_too_large, Some o) ∧
   error_kind New_data_is_too_large = CapacityExceeded) ∧
  (0 < data_length ≤ o.(max_array_length) →
   o.(next_free_array) = o.(number_of_arrays) →
   Append_Data_To_Document_Word_List (Some o) (Some new_data) data_length
     = (Assert_failed All_arrays_are_in_use, Some o) ∧
   error_kind All_arrays_are_in_use = ContainerFull) ∧
  (∀ n m arrays,
     0 < n → 0 < m → length arrays = n →
     Forall (λ array, 0 < length array ≤ m) arrays →
     0 < data_length ≤ m →
     ∃ full, build n m arrays = Some full ∧
       Append_Data_To_Document_Word_List (Some full) (Some new_data) data_length
         = (Assert_failed All_arrays_are_in_use, Some full)) ∧
  (∀ a object',
     Append_Data_To_Document_Word_List (Some o) (Some new_data) data_length
       = (Assert_failed a, object') →
     object' = Some o).
Proof.
  assert (∀ o, 0 < data_length ≤ o.(max_array_length) →
    o.(next_free_array) = o.(number_of_arrays) →
    Append_Data_To_Document_Word_List (Some o) (Some new_data) data_length
      = (Assert_failed All_arrays_are_in_use, Some o)) as Hfull_container.
  { intros full Hlen Hfull. unfold Append_Data_To_Document_Word_List.
    destruct (Nat.eqb_spec data_length 0) as [->|_]; [lia |].
    destruct (Nat.leb_spec data_length full.(max_array_length)); [| lia].
    by destruct (Nat.ltb_spec full.(next_free_array) full.(number_of_arrays)); [lia |]. }
  split_and!.
  - intros Hlen. split; [| done]. unfold Append_Data_To_Document_Word_List.
    destruct (Nat.eqb_spec data_length 0) as [->|_]; [lia |].
    by destruct (Nat.leb_spec data_length o.(max_array_length)); [lia |].
  - intros Hlen Hfull. split; [| done]. by apply Hfull_container.
  - intros n m arrays Hn Hm Harrays Hall Hlen.
    destruct (build_cursor n m arrays) as (full & Hbuild & _ & Hcur & Hnum & Hmax);
      try done; try lia.
    exists full. split; [done |]. apply Hfull_container; [by rewrite Hmax | lia].
  - intros a object'. apply Append_assert_unchanged.
Qed.

Lemma append_failures_leave_container_unchanged_witness :
  Append_Data_To_Document_Word_List (Some scenario_container) (Some [7; 8; 9]%N) 3
    = (Assert_failed All_arrays_are_in_use, Some scenario_container) ∧
  Append_Data_To_Document_Word_List (Some scenario_container)
    (Some [1; 2; 3; 4; 5; 6]%N) 6
    = (Assert_failed New_data_is_too_large, Some scenario_container).
Proof.
  split.
  - apply (append_failures_leave_container_unchanged scenario_container [7; 8; 9]%N 3);
      [simpl; lia | reflexivity].
  - apply (append_failures_leave_container_unchanged scenario_container
             [1; 2; 3; 4; 5; 6]%N 6).
    simpl. lia.
Defined.

(** C7, as the claim has it, fails for the query: a call with a query of
    length 0 aborts on the assertion "data length is 0 !". *)
Lemma empty_query_is_rejected :
  Intersect_Data_With_Document_Word_List 0 cleared (Some scenario_container)
    (Some scenario_query) 0 0 = Assert_failed data_length_is_0 ∧
  ¬ ∃ r, Intersect_Data_With_Document_Word_List 0 cleared (Some scenario_container)
           (Some scenario_query) 0 0 = Ok r.
Proof. split; [reflexivity |]. by intros [r Hr]. Qed.

(** C7, amended: a query of length 0 makes the call fail on the assertion
    "data length is 0 !"; an input slot of length 0 yields a result slot of
    length 0 and is not an error: whenever the call returns, the result slot
    is empty, and the call does return when the matched values are below the
    size of the guard, whatever the other slots hold. *)
Theorem empty_slot_gives_empty_slot (MODE : Z) (fresh : nat → bool)
    (object : Document_Word_List) (query : list N) :
  (∀ mode, Intersect_Data_With_Document_Word_List MODE fresh (Some object) (Some query)
             0 mode = Assert_failed data_length_is_0) ∧
  (∀ data_length mode r,
     Valid object → data_length ≤ length query →
     Intersect_Data_With_Document_Word_List MODE fresh (Some object) (Some query)
       data_length mode = Ok r →
     ∀ i, length_of object i = 0 → length_of r i = 0 ∧ used_elements r i = []) ∧
  (∀ data_length,
     Valid object → 0 < data_length ≤ object.(max_array_length) →
     data_length ≤ length query →
     Addressable object query data_length →
     ∃ r, Intersect_Data_With_Document_Word_List MODE fresh (Some object) (Some query)
            data_length MODE = Ok r ∧
          ∀ i, length_of object i = 0 → length_of r i = 0 ∧ used_elements r i = []).
Proof.
  assert (∀ data_length r, Valid object → Post object query data_length r →
          ∀ i, length_of object i = 0 → length_of r i = 0 ∧ used_elements r i = [])
    as Hslot.
  { intros data_length r Hvalid HP i Hi.
    destruct (Post_length_of _ _ _ _ i Hvalid HP) as [Hle _].
    assert (length_of r i = 0) as Hzero by lia.
    split; [done | by apply used_elements_nil]. }
  split_and!.
  - done.
  - intros data_length mode r Hvalid Hquery Hr.
    by eapply Hslot, Intersect_Post.
  - intros data_length Hvalid [Hpos Hmax] Hquery HA.
    destruct (Intersect_total MODE fresh object query data_length) as (r & Hr & HP);
      try done.
    exists r. split; [done |]. by eapply Hslot.
Qed.

Lemma empty_slot_gives_empty_slot_witness :
  ∃ r, Intersect_Data_With_Document_Word_List 0 cleared (build 2 5 [[1; 2]]%N)
         (Some scenario_query) 3 0 = Ok r ∧
       length_of r 1 = 0 ∧ used_elements r 1 = [].
Proof.
  destruct (empty_slot_gives_empty_slot 0 cleared
              {| data := [[1; 2; 0; 0; 0]; [0; 0; 0; 0; 0]]%N;
                 arrays_lengths := [2; 0];
                 number_of_arrays := 2; max_array_length := 5;
                 next_free_array := 1; intersection_data := false |}
              scenario_query) as (_ & _ & Hreturns).
  destruct (Hreturns 3) as (r & Hr & Hslot).
  - compute_done.
  - simpl. lia.
  - simpl. lia.
  - apply Addressable_small. intros v Hv. simpl in Hv.
    repeat (apply elem_of_cons in Hv as [->|Hv]; [lia |]). by apply elem_of_nil in Hv.
  - exists r. split; [exact Hr | by apply Hslot].
Defined.

(** C8: a call whose mode is not the supported one fails; it fails on an
    assertion that stands for [InvalidArgument], on the assertion on the mode
    itself when the arguments before it are accepted, and no result is
    returned. A call with the supported mode does not fail on the mode. *)
Theorem unsupported_mode_is_rejected (MODE : Z) (fresh : nat → bool)
    (object : option Document_Word_List) (data : option (list N)) (data_length : nat)
    (mode : Z) :
  (mode ≠ MODE →
   ∃ a, Intersect_Data_With_Document_Word_List MODE fresh object data data_length mode
          = Assert_failed a ∧ error_kind a = InvalidArgument) ∧
  (mode ≠ MODE → is_Some object → is_Some data → 0 < data_length →
   Intersect_Data_With_Document_Word_List MODE fresh object data data_length mode
     = Assert_failed Invalid_intersection_mode) ∧
  (mode = MODE →
   Intersect_Data_With_Document_Word_List MODE fresh object data data_length mode
     ≠ Assert_failed Invalid_intersection_mode).
Proof.
  assert (mode ≠ MODE → is_Some object → is_Some data → 0 < data_length →
    Intersect_Data_With_Document_Word_List MODE fresh object data data_length mode
      = Assert_failed Invalid_intersection_mode) as Hmode.
  { intros Hne [o ->] [query ->] Hpos. unfold Intersect_Data_With_Document_Word_List.
    destruct (Nat.eqb_spec data_length 0) as [->|_]; [lia |]. step_assert.
    by destruct (Z.eqb_spec mode MODE). }
  split_and!.
  - intros Hne. destruct object as [o|]; [| by exists Object_is_NULL].
    destruct data as [query|]; [| by exists data_is_NULL].
    destruct data_length as [|n]; [by exists data_length_is_0 |].
    exists Invalid_intersection_mode. split; [| done].
    apply Hmode; [done | eauto | eauto | lia].
  - done.
  - intros ->. unfold Intersect_Data_With_Document_Word_List.
    destruct object as [o|]; [| done]. destruct data as [query|]; [| done].
    destruct (Nat.eqb_spec data_length 0) as [->|_]; [done |]. step_assert.
    rewrite Z.eqb_refl. step_assert.
    destruct (ASSERT_MSG _ data_is_too_large) as [[]| |] eqn:Hlarge.
    + step_assert.
      destruct (Create_Document_Word_List _ _) as [created| |] eqn:Hcreate.
      * step_assert. apply bind_no_assert; [apply intersection_loops_no_assert | done].
      * unfold Create_Document_Word_List, ASSERT_MSG in Hcreate.
        repeat (case_match; simplify_eq/=); done.
      * done.
    + unfold ASSERT_MSG in Hlarge. destruct (_ <=? _); [done |].
      injection Hlarge as <-. step_assert. done.
    + unfold ASSERT_MSG in Hlarge. by destruct (_ <=? _).
Qed.

Lemma unsupported_mode_is_rejected_witness :
  Intersect_Data_With_Document_Word_List 0 cleared (Some scenario_container)
    (Some scenario_query) 3 1 = Assert_failed Invalid_intersection_mode.
Proof.
  apply (unsupported_mode_is_rejected 0 cleared (Some scenario_container)
           (Some scenario_query) 3 1); [done | eauto | eauto | lia].
Defined.

(** What the test of the guard misses: a value equal to the size of the guard,
    and a value beyond the size by one step or more. The read of the guard is
    then outside its block. *)
Lemma guard_overrun (fresh : nat → bool) (i : nat) (v : N) (st : Loop_State) :
  length st.(multiple_guard) = st.(size_multiple_guard) →
  N.to_nat v = st.(size_multiple_guard) ∨
  st.(size_multiple_guard) + multiple_guard_realloc_step ≤ N.to_nat v →
  add_to_result i v (grow_multiple_guard fresh v st) = Out_of_bounds Block_multiple_guard.
Proof.
  intros Hguard Hv. unfold grow_multiple_guard, add_to_result, load.
  destruct (N.ltb_spec (N.of_nat st.(size_multiple_guard)) v) as [Hlt|Hge];
    cbn [multiple_guard].
  - rewrite (lookup_ge_None_2 (REALLOC _ _ _) (N.to_nat v)); [reflexivity |].
    unfold REALLOC. rewrite length_app, length_take, length_fmap, length_seq.
    unfold multiple_guard_realloc_step in *. lia.
  - rewrite (lookup_ge_None_2 st.(multiple_guard) (N.to_nat v)); [reflexivity |].
    unfold multiple_guard_realloc_step in *. lia.
Qed.

(** C1 at a failing input: the one array holds the value 1000, so does the
    query. The guard has 1000 cells, the test [1000 > 1000] does not grow it,
    and the read of cell 1000 is outside the guard: the call has no result to
    return. With the value 1500 the guard grows to 2000 cells, the added cells
    hold what [REALLOC] left there; if that reads as a mark the value is not
    written to the result, although it is in the array and in the query. *)
Theorem intersection_overruns_guard_at_its_size :
  (build 1 1 [[1000]]%N = Some (single 1000) ∧ Valid (single 1000) ∧
   1000%N ∈ used_elements (single 1000) 0 ∧ 1000%N ∈ take 1 [1000%N] ∧
   Intersect_Data_With_Document_Word_List 0 cleared (Some (single 1000))
     (Some [1000]%N) 1 0 = Out_of_bounds Block_multiple_guard) ∧
  (build 1 1 [[1500]]%N = Some (single 1500) ∧ Valid (single 1500) ∧
   1500%N ∈ used_elements (single 1500) 0 ∧ 1500%N ∈ take 1 [1500%N] ∧
   ∃ r, Intersect_Data_With_Document_Word_List 0 dirty (Some (single 1500))
          (Some [1500]%N) 1 0 = Ok r ∧
        used_elements r 0 = []).
Proof.
  split; (split; [reflexivity |]); (split; [apply single_Valid |]);
    (split; [by apply list_elem_of_singleton |]);
    (split; [by apply list_elem_of_singleton |]).
  - vm_compute. reflexivity.
  - eexists. split; [vm_compute; reflexivity | reflexivity].
Qed.

(** C2 at a failing input: the value 5000 is matched while the guard has 1000
    cells. The guard grows once, to 2000 cells, and the read of cell 5000 is
    outside the guard. *)
Theorem guard_grows_by_one_step_only :
  build 1 1 [[5000]]%N = Some (single 5000) ∧ Valid (single 5000) ∧
  (grow_multiple_guard cleared 5000
     {| intersection_result := single 0;
        size_multiple_guard := multiple_guard_realloc_step;
        multiple_guard := replicate multiple_guard_realloc_step false |})
    .(size_multiple_guard) = 2000 ∧
  Intersect_Data_With_Document_Word_List 0 cleared (Some (single 5000))
    (Some [5000]%N) 1 0 = Out_of_bounds Block_multiple_guard.
Proof.
  split; [reflexivity |]. split; [apply single_Valid |].
  split; vm_compute; reflexivity.
Qed.

(** Whatever the value, one test grows the guard by at most one step. *)
Lemma grow_multiple_guard_size (fresh : nat → bool) (v : N) (st : Loop_State) :
  (grow_multiple_guard fresh v st).(size_multiple_guard)
    ≤ st.(size_multiple_guard) + multiple_guard_realloc_step.
Proof.
  unfold grow_multiple_guard. case_match; simpl; lia.
Qed.

(** ** The sorts *)

Lemma partition_Permutation (pivot : N) (l : list N) :
  filter (λ x, x < pivot)%N l ++ filter (λ x, pivot ≤ x)%N l ≡ₚ l.
Proof.
  induction l as [|x l IH]; [done |].
  rewrite !filter_cons. destruct (decide (x < pivot)%N), (decide (pivot ≤ x)%N); try lia.
  - simpl. by rewrite IH.
  - rewrite <- Permutation_middle. by rewrite IH.
Qed.

Lemma quicksort_Permutation (l : list N) : quicksort l ≡ₚ l.
Proof.
  funelim (quicksort l); [done |].
  rewrite H, H0. rewrite <- Permutation_middle. by rewrite partition_Permutation.
Qed.

Lemma quicksort_sorted (l : list N) : StronglySorted N.le (quicksort l).
Proof.
  funelim (quicksort l); [constructor |].
  apply StronglySorted_app. split; [| split; [done |]].
  - intros x1 x2 Hx1 Hx2. rewrite quicksort_Permutation in Hx1.
    apply list_elem_of_filter in Hx1 as [Hx1 _].
    apply elem_of_cons in Hx2 as [->|Hx2]; [lia |].
    rewrite quicksort_Permutation in Hx2.
    apply list_elem_of_filter in Hx2 as [Hx2 _]. lia.
  - apply StronglySorted_cons. split; [| done].
    apply Forall_forall. intros x Hx. rewrite quicksort_Permutation in Hx.
    by apply list_elem_of_filter in Hx as [? _].
Qed.

Lemma merge_Node (l1 : Heap) (x1 : N) (r1 l2 : Heap) (x2 : N) (r2 : Heap) :
  merge (Node l1 x1 r1) (Node l2 x2 r2) =
    if (x1 <=? x2)%N then Node (merge r1 (Node l2 x2 r2)) x1 l1
    else Node (merge (Node l1 x1 r1) r2) x2 l2.
Proof. reflexivity. Qed.

Lemma merge_Empty_r (h : Heap) : merge h Empty = h.
Proof. by destruct h. Qed.

Lemma merge_Empty_l (h : Heap) : merge Empty h = h.
Proof. by destruct h. Qed.

Lemma merge_elements (h1 h2 : Heap) :
  elements (merge h1 h2) ≡ₚ elements h1 ++ elements h2.
Proof.
  revert h2. induction h1 as [|l1 IHl1 x1 r1 IHr1]; intros h2;
    [by rewrite merge_Empty_l |].
  induction h2 as [|l2 IHl2 x2 r2 IHr2]; [by rewrite merge_Empty_r, app_nil_r |].
  rewrite merge_Node. destruct (x1 <=? x2)%N.
  - cbn [elements]. rewrite IHr1. cbn [elements]. simpl. apply perm_skip.
    etrans; [apply Permutation_app_comm |]. by rewrite app_assoc.
  - cbn [elements]. rewrite IHr2.
    change (x1 :: elements l1 ++ elements r1) with (elements (Node l1 x1 r1)).
    generalize (elements (Node l1 x1 r1)). intros E.
    rewrite <- Permutation_middle. apply perm_skip.
    rewrite <- app_assoc. apply Permutation_app_head, Permutation_app_comm.
Qed.

Lemma merge_Ordered (h1 h2 : Heap) :
  Heap_Ordered h1 → Heap_Ordered h2 → Heap_Ordered (merge h1 h2).
Proof.
  revert h2. induction h1 as [|l1 IHl1 x1 r1 IHr1]; intros h2;
    [by rewrite merge_Empty_l |].
  induction h2 as [|l2 IHl2 x2 r2 IHr2]; [by rewrite merge_Empty_r |].
  intros H1 H2. pose proof H1 as (Hl1 & Hr1 & Hxl1 & Hxr1).
  pose proof H2 as (Hl2 & Hr2 & Hxl2 & Hxr2).
  rewrite merge_Node. destruct (N.leb_spec x1 x2) as [Hle|Hgt].
  - cbn [Heap_Ordered]. split_and!; try done.
    + by apply IHr1.
    + rewrite merge_elements. apply Forall_app. split; [done |].
      cbn [elements]. apply Forall_cons. split; [done |].
      apply Forall_app. split; eapply Forall_impl; eauto; simpl; lia.
  - cbn [Heap_Ordered]. split_and!; try done.
    + by apply IHr2.
    + rewrite merge_elements. apply Forall_app. split; [| done].
      cbn [elements]. apply Forall_cons. split; [lia |].
      apply Forall_app. split; eapply Forall_impl; eauto; simpl; lia.
Qed.

Lemma size_elements (h : Heap) : size h = length (elements h).
Proof.
  induction h as [|l IHl x r IHr]; [done |].
  simpl. rewrite length_app. lia.
Qed.

Lemma heapify_elements (l : list N) : elements (heapify l) ≡ₚ l.
Proof.
  induction l as [|x l IH]; [done |].
  unfold heapify in *. cbn [foldr]. rewrite merge_elements. simpl. by rewrite IH.
Qed.

Lemma heapify_Ordered (l : list N) : Heap_Ordered (heapify l).
Proof.
  induction l as [|x l IH]; [done |].
  unfold heapify in *. cbn [foldr]. apply merge_Ordered; [| done].
  simpl. split_and!; done.
Qed.

Lemma drain_spec (count : nat) (h : Heap) :
  count = size h → Heap_Ordered h →
  drain count h ≡ₚ elements h ∧ StronglySorted N.le (drain count h).
Proof.
  revert h. induction count as [|count IH]; intros h Hcount Hh.
  - destruct h; [| done]. split; [done | constructor].
  - destruct h as [|l x r]; [done |]. cbn [drain].
    destruct Hh as (Hl & Hr & Hxl & Hxr).
    destruct (IH (merge l r)) as [Hperm Hsorted].
    + rewrite size_elements, merge_elements, length_app, <- !size_elements.
      simpl in Hcount. lia.
    + by apply merge_Ordered.
    + rewrite merge_elements in Hperm. split.
      * cbn [elements]. by apply perm_skip.
      * apply StronglySorted_cons. split; [| done].
        rewrite Hperm. by apply Forall_app.
Qed.

Lemma heapsort_Permutation (l : list N) : heapsort l ≡ₚ l.
Proof.
  unfold heapsort.
  destruct (drain_spec (size (heapify l)) (heapify l)) as [Hperm _];
    [done | apply heapify_Ordered |].
  rewrite Hperm. apply heapify_elements.
Qed.

Lemma heapsort_sorted (l : list N) : StronglySorted N.le (heapsort l).
Proof.
  unfold heapsort.
  by destruct (drain_spec (size (heapify l)) (heapify l)) as [_ ?];
    [| apply heapify_Ordered |].
Qed.

(** ** The binary search *)

Lemma StronglySorted_Ascending (l : list N) : StronglySorted N.le l → Ascending l.
Proof.
  induction 1 as [|x l Hl IH Hx]; intros i j a b Hij Ha Hb.
  - by rewrite lookup_nil in Ha.
  - destruct i as [|i], j as [|j]; simpl in *; try lia.
    + injection Ha as <-. injection Hb as <-. apply N.le_refl.
    + injection Ha as <-. apply (Forall_lookup_1 _ _ _ _ Hx Hb).
    + eapply (IH i j); [lia | done | done].
Qed.

Lemma binary_search_between_spec (sorted : list N) (value : N) (lo hi : nat) :
  Ascending sorted → hi ≤ length sorted →
  binary_search_between sorted value lo hi = true ↔
  ∃ k, lo ≤ k < hi ∧ sorted !! k = Some value.
Proof.
  intros Hsorted. funelim (binary_search_between sorted value lo hi); intros Hhi.
  all: try assert (lo ≤ lo + (hi - lo) `div` 2 < hi) as Hmid
    by (pose proof (Nat.div_lt (hi - lo) 2 ltac:(lia) ltac:(lia)); lia).
  all: try set (mid := lo + (hi - lo) `div` 2) in *.
  - split; [done |]. intros (k & Hk & _). lia.
  - match goal with H : sorted !! mid = None |- _ => apply lookup_ge_None_1 in H end. lia.
  - split; [| done]. intros _. exists mid. split; [lia |].
    match goal with H : (_ ?= _)%N = Eq |- _ => apply N.compare_eq in H as <- end. done.
  - match goal with H : (?a ?= ?b)%N = Lt |- _ =>
      assert (a < b)%N as Hlt by (by apply N.compare_lt_iff) end.
    match goal with H : sorted !! mid = Some _ |- _ => rename H into Hmiddle end.
    match goal with H : Ascending _ → _ |- _ => rewrite H by done end.
    split; intros (k & Hk & Hv); exists k; (split; [| done]); [lia |].
    destruct (decide (k ≤ mid)) as [Hle|Hgt]; [| lia].
    pose proof (Hsorted k mid _ _ Hle Hv Hmiddle). lia.
  - match goal with H : (?a ?= ?b)%N = Gt |- _ =>
      assert (b < a)%N as Hgt by (by apply N.compare_gt_iff) end.
    match goal with H : sorted !! mid = Some _ |- _ => rename H into Hmiddle end.
    match goal with H : Ascending _ → _ |- _ => rewrite H by (done || lia) end.
    split; intros (k & Hk & Hv); exists k; (split; [| done]); [lia |].
    destruct (decide (mid ≤ k)) as [Hle|Hlt]; [| lia].
    pose proof (Hsorted mid k _ _ Hle Hmiddle Hv). lia.
Qed.

Lemma binary_search_spec (sorted : list N) (value : N) :
  Ascending sorted → binary_search sorted value = true ↔ value ∈ sorted.
Proof.
  intros Hsorted. unfold binary_search.
  rewrite binary_search_between_spec by done. rewrite list_elem_of_lookup. split.
  - intros (k & _ & Hk). by exists k.
  - intros [k Hk]. exists k. split; [| done]. apply lookup_lt_Some in Hk. lia.
Qed.

(** * Further properties of the source *)

(** ** Creation *)

(** X1: a container is created exactly when both dimensions are positive; a
    number of arrays of 0 is rejected first, then a maximum array length of 0.
    A created container holds only zeros and is not flagged as intersection
    data. *)
Theorem Create_outcomes (n m : nat) :
  (n = 0 → Create_Document_Word_List n m = Assert_failed Number_of_arrays_is_0) ∧
  (0 < n → m = 0 → Create_Document_Word_List n m = Assert_failed Max_array_length_is_0) ∧
  ((∃ r, Create_Document_Word_List n m = Ok r) ↔ 0 < n ∧ 0 < m) ∧
  (∀ r, Create_Document_Word_List n m = Ok r →
     r.(number_of_arrays) = n ∧ r.(max_array_length) = m ∧
     r.(intersection_data) = false ∧
     ∀ i j, i < n → j < m → array_of r i !! j = Some 0%N).
Proof.
  split_and!.
  - by intros ->.
  - intros Hn ->. by destruct n; [lia |].
  - split; [intros [r Hr]; by eapply Create_inv |].
    intros [Hn Hm]. rewrite Create_Ok by done. eauto.
  - intros r Hr. destruct (Create_inv _ _ _ Hr) as [Hn Hm].
    rewrite Create_Ok in Hr by done. injection Hr as <-. simpl.
    split_and!; try done. intros i j Hi Hj. unfold array_of; simpl.
    rewrite lookup_replicate_2 by done. simpl. by rewrite lookup_replicate_2.
Qed.

Lemma Create_outcomes_witness :
  Create_Document_Word_List 0 0 = Assert_failed Number_of_arrays_is_0 ∧
  Create_Document_Word_List 3 0 = Assert_failed Max_array_length_is_0 ∧
  ∃ r, Create_Document_Word_List 3 4 = Ok r.
Proof.
  split; [by apply (Create_outcomes 0 0) |].
  split; [apply (Create_outcomes 3 0); [lia | done] |].
  apply (Create_outcomes 3 4). lia.
Defined.

(** ** Append *)

Lemma Append_Ok_appended (o : Document_Word_List) (new_data : list N) (data_length : nat) :
  Valid o → 0 < data_length ≤ o.(max_array_length) → data_length ≤ length new_data →
  o.(next_free_array) < o.(number_of_arrays) →
  Append_Data_To_Document_Word_List (Some o) (Some new_data) data_length
    = (Ok (),
       Some (set_next_free_array (S o.(next_free_array))
               (set_arrays_lengths (<[o.(next_free_array) := data_length]> o.(arrays_lengths))
                  (set_data
                     (<[o.(next_free_array) :=
                          take data_length new_data
                          ++ drop data_length (array_of o o.(next_free_array))]> o.(data))
                     o)))).
Proof.
  intros Hvalid [Hpos Hmax] Hsrc Hfree.
  pose proof Hvalid as [(Hn & Hm & Hdata & Harrays & Hlengths) _].
  unfold Append_Data_To_Document_Word_List.
  destruct (Nat.eqb_spec data_length 0) as [->|_]; [lia |].
  destruct (Nat.leb_spec data_length o.(max_array_length)); [| lia].
  destruct (Nat.ltb_spec o.(next_free_array) o.(number_of_arrays)); [| lia].
  cbn [negb]. unfold array_of.
  destruct (lookup_lt_is_Some_2 o.(data) o.(next_free_array)) as [dest Hdest]; [lia |].
  pose proof (Forall_lookup_1 _ _ _ _ Harrays Hdest) as Hdest_len. simpl in Hdest_len.
  rewrite Hdest. unfold memcpy, store.
  rewrite (bool_decide_eq_false_2 (length new_data < data_length)) by lia.
  rewrite (bool_decide_eq_false_2 (length dest < data_length)) by lia.
  cbn [set_data arrays_lengths next_free_array].
  by rewrite bool_decide_eq_true_2 by lia.
Qed.

Lemma Append_Ok_inv (o : Document_Word_List) (new_data : list N) (data_length : nat)
    (o' : Document_Word_List) :
  Append_Data_To_Document_Word_List (Some o) (Some new_data) data_length
    = (Ok (), Some o') →
  0 < data_length ≤ o.(max_array_length) ∧
  o.(next_free_array) < o.(number_of_arrays) ∧ data_length ≤ length new_data.
Proof.
  unfold Append_Data_To_Document_Word_List.
  destruct (Nat.eqb_spec data_length 0) as [->|Hpos]; [done |].
  destruct (Nat.leb_spec data_length o.(max_array_length)); simpl; [| done].
  destruct (Nat.ltb_spec o.(next_free_array) o.(number_of_arrays)); simpl; [| done].
  destruct (o.(data) !! o.(next_free_array)); [| done].
  unfold memcpy. case_bool_decide; [done |]. intros _. lia.
Qed.

(** What a successful append leaves as it was, and the length it records. *)
Lemma Append_Ok_other (o : Document_Word_List) (new_data : list N) (data_length : nat)
    (o' : Document_Word_List) :
  Valid o →
  Append_Data_To_Document_Word_List (Some o) (Some new_data) data_length
    = (Ok (), Some o') →
  length_of o' o.(next_free_array) = data_length ∧
  o'.(intersection_data) = o.(intersection_data) ∧
  ∀ j, j ≠ o.(next_free_array) →
    array_of o' j = array_of o j ∧ length_of o' j = length_of o j ∧
    used_elements o' j = used_elements o j.
Proof.
  intros Hvalid Happend.
  destruct (Append_Ok_inv _ _ _ _ Happend) as (Hlen & Hfree & Hsrc).
  pose proof Hvalid as [(Hn & Hm & Hdata & Harrays & Hlengths) _].
  rewrite Append_Ok_appended in Happend by done. injection Happend as <-.
  split_and!.
  - unfold length_of; simpl. by rewrite list_lookup_insert_eq by lia.
  - done.
  - intros j Hj. unfold used_elements, array_of, length_of; simpl.
    by rewrite !list_lookup_insert_ne by done.
Qed.

(** X2: an append that the container accepts copies the first [data_length]
    values of the new data to the array at the cursor, keeps the cells of that
    array after them, advances the cursor by one, and leaves every other
    array, every other length and the attributes as they were. *)
Theorem append_then_read (o : Document_Word_List) (new_data : list N) (data_length : nat) :
  Valid o → 0 < data_length ≤ o.(max_array_length) → data_length ≤ length new_data →
  o.(next_free_array) < o.(number_of_arrays) →
  ∃ o', Append_Data_To_Document_Word_List (Some o) (Some new_data) data_length
          = (Ok (), Some o') ∧
        o'.(next_free_array) = S o.(next_free_array) ∧
        used_elements o' o.(next_free_array) = take data_length new_data ∧
        length_of o' o.(next_free_array) = data_length ∧
        array_of o' o.(next_free_array)
          = take data_length new_data ++ drop data_length (array_of o o.(next_free_array)) ∧
        (∀ j, j ≠ o.(next_free_array) →
           array_of o' j = array_of o j ∧ length_of o' j = length_of o j ∧
           used_elements o' j = used_elements o j) ∧
        o'.(number_of_arrays) = o.(number_of_arrays) ∧
        o'.(max_array_length) = o.(max_array_length) ∧
        o'.(intersection_data) = o.(intersection_data).
Proof.
  intros Hvalid Hlen Hsrc Hfree.
  pose proof Hvalid as [(Hn & Hm & Hdata & Harrays & Hlengths) _].
  eexists. split; [by apply Append_Ok_appended |].
  assert (∀ j, j ≠ o.(next_free_array) →
    array_of (set_next_free_array (S o.(next_free_array))
               (set_arrays_lengths (<[o.(next_free_array) := data_length]> o.(arrays_lengths))
                  (set_data
                     (<[o.(next_free_array) :=
                          take data_length new_data
                          ++ drop data_length (array_of o o.(next_free_array))]> o.(data))
                     o))) j = array_of o j ∧
    length_of (set_next_free_array (S o.(next_free_array))
               (set_arrays_lengths (<[o.(next_free_array) := data_length]> o.(arrays_lengths))
                  (set_data
                     (<[o.(next_free_array) :=
                          take data_length new_data
                          ++ drop data_length (array_of o o.(next_free_array))]> o.(data))
                     o))) j = length_of o j) as Hframe.
  { intros j Hj. unfold array_of, length_of; simpl.
    by rewrite !list_lookup_insert_ne by done. }
  split_and!; try done.
  - unfold used_elements, length_of, array_of; simpl.
    rewrite !list_lookup_insert_eq by lia. simpl.
    rewrite take_app_le by (rewrite length_take; lia).
    rewrite take_take. f_equal. lia.
  - unfold length_of; simpl. by rewrite list_lookup_insert_eq by lia.
  - unfold array_of at 1; simpl. by rewrite list_lookup_insert_eq by lia.
  - intros j Hj. destruct (Hframe j Hj) as [Ha Hl]. split_and!; try done.
    unfold used_elements. by rewrite Ha, Hl.
Qed.

Lemma append_then_read_witness :
  ∃ o', Append_Data_To_Document_Word_List (build 2 5 [[1; 2; 3; 2; 1]]%N)
          (Some [4; 5; 6; 7]%N) 3 = (Ok (), Some o') ∧
        used_elements o' 1 = [4; 5; 6]%N ∧ used_elements o' 0 = [1; 2; 3; 2; 1]%N.
Proof.
  destruct (append_then_read
              {| data := [[1; 2; 3; 2; 1]; [0; 0; 0; 0; 0]]%N; arrays_lengths := [5; 0];
                 number_of_arrays := 2; max_array_length := 5;
                 next_free_array := 1; intersection_data := false |}
              [4; 5; 6; 7]%N 3) as (o' & Ho' & _ & Hused & _ & _ & Hframe & _).
  - compute_done.
  - simpl. lia.
  - simpl. lia.
  - simpl. lia.
  - exists o'. split; [exact Ho' |]. split; [exact Hused |].
    by destruct (Hframe 0) as (_ & _ & ->).
Defined.

(** X3: on a valid container an append never reads or writes outside the
    blocks of the container: the only access out of bounds it can make is the
    read of [new_data], when that block has fewer than [data_length] values
    and the assertions have accepted the call. *)
Theorem append_out_of_bounds (o : Document_Word_List) (new_data : list N)
    (data_length : nat) (b : Block) :
  Valid o →
  (Append_Data_To_Document_Word_List (Some o) (Some new_data) data_length).1
    = Out_of_bounds b ↔
  b = Block_new_data ∧ 0 < data_length ≤ o.(max_array_length) ∧
  o.(next_free_array) < o.(number_of_arrays) ∧ length new_data < data_length.
Proof.
  intros Hvalid. pose proof Hvalid as [(Hn & Hm & Hdata & Harrays & Hlengths) _].
  destruct (decide (0 < data_length ≤ o.(max_array_length) ∧
                    o.(next_free_array) < o.(number_of_arrays))) as [[Hlen Hfree]|Hno].
  - destruct (decide (length new_data < data_length)) as [Hshort|Hlong].
    + unfold Append_Data_To_Document_Word_List.
      destruct (Nat.eqb_spec data_length 0) as [->|_]; [lia |].
      destruct (Nat.leb_spec data_length o.(max_array_length)); [| lia].
      destruct (Nat.ltb_spec o.(next_free_array) o.(number_of_arrays)); [| lia].
      cbn [negb].
      destruct (lookup_lt_is_Some_2 o.(data) o.(next_free_array)) as [dest ->]; [lia |].
      unfold memcpy. rewrite bool_decide_eq_true_2 by done. simpl.
      split; [by intros [= <-] | by intros [-> _]].
    + rewrite Append_Ok_appended by (done || lia). simpl. split; [done | lia].
  - unfold Append_Data_To_Document_Word_List.
    destruct (Nat.eqb_spec data_length 0) as [->|Hpos]; simpl; [split; [done | lia] |].
    destruct (Nat.leb_spec data_length o.(max_array_length)); simpl; [| split; [done | lia]].
    destruct (Nat.ltb_spec o.(next_free_array) o.(number_of_arrays)); simpl;
      [lia | split; [done | lia]].
Qed.

Lemma append_out_of_bounds_witness :
  (Append_Data_To_Document_Word_List (build 2 5 [[1; 2; 3; 2; 1]]%N)
     (Some [4; 5]%N) 3).1 = Out_of_bounds Block_new_data.
Proof.
  apply (append_out_of_bounds
           {| data := [[1; 2; 3; 2; 1]; [0; 0; 0; 0; 0]]%N; arrays_lengths := [5; 0];
              number_of_arrays := 2; max_array_length := 5;
              next_free_array := 1; intersection_data := false |}
           [4; 5]%N 3 Block_new_data).
  - compute_done.
  - simpl. split_and!; (done || lia).
Defined.

(** X4: in a container that was created and filled by appends, the arrays
    before the cursor are exactly the arrays that hold values: an append never
    stores an empty array and never skips an array. The container is valid and
    not flagged as intersection data. *)
Theorem reachable_arrays_in_use (o : Document_Word_List) :
  Reachable o →
  Valid o ∧ o.(intersection_data) = false ∧
  ∀ i, i < o.(next_free_array) ↔ 0 < length_of o i.
Proof.
  induction 1 as [n m o Hcreate | o new_data data_length o' Hreach IH Happend].
  - destruct (Create_Valid _ _ _ Hcreate) as (Hvalid & Hcur & Hzero).
    split_and!; try done.
    + destruct (Create_inv _ _ _ Hcreate) as [Hn Hm].
      rewrite Create_Ok in Hcreate by done. by injection Hcreate as <-.
    + intros i. rewrite Hcur, Hzero. lia.
  - destruct IH as (Hvalid & Hflag & Huse).
    destruct (Append_Ok_inv _ _ _ _ Happend) as (Hlen & Hfree & Hsrc).
    destruct (Append_Ok o new_data data_length Hvalid Hlen Hsrc Hfree)
      as (o'' & Ho'' & Hvalid' & Hcur & _).
    rewrite Happend in Ho''. injection Ho'' as <-.
    destruct (Append_Ok_other _ _ _ _ Hvalid Happend) as (Hlen_cur & Hflag' & Hframe).
    split_and!; [done | congruence |].
    intros i. rewrite Hcur. destruct (decide (i = o.(next_free_array))) as [->|Hne].
    + rewrite Hlen_cur. lia.
    + destruct (Hframe i Hne) as (_ & -> & _). rewrite <- Huse. lia.
Qed.

Lemma reachable_arrays_in_use_witness :
  Valid scenario_container ∧ scenario_container.(intersection_data) = false ∧
  ∀ i, i < 2 ↔ 0 < length_of scenario_container i.
Proof.
  apply (reachable_arrays_in_use scenario_container).
  apply (Reachable_append
           {| data := [[1; 2; 3; 2; 1]; [0; 0; 0; 0; 0]]%N; arrays_lengths := [5; 0];
              number_of_arrays := 2; max_array_length := 5;
              next_free_array := 1; intersection_data := false |}
           [4; 5; 6]%N 3); [| reflexivity].
  apply (Reachable_append
           {| data := [[0; 0; 0; 0; 0]; [0; 0; 0; 0; 0]]%N; arrays_lengths := [0; 0];
              number_of_arrays := 2; max_array_length := 5;
              next_free_array := 0; intersection_data := false |}
           [1; 2; 3; 2; 1]%N 5); [| reflexivity].
  apply (Reachable_create 2 5). reflexivity.
Defined.

(** X5: a container created with room for them and filled by one append for
    each array of a list gives the arrays back: the elements in use of array
    [i] are the [i]-th array of the list, and the arrays after them are
    empty. *)
Theorem build_round_trip (n m : nat) (arrays : list (list N)) :
  0 < n → 0 < m → length arrays ≤ n →
  Forall (λ array, 0 < length array ≤ m) arrays →
  ∃ o, build n m arrays = Some o ∧ Reachable o ∧
       o.(next_free_array) = length arrays ∧
       ∀ i, used_elements o i = default [] (arrays !! i).
Proof.
  intros Hn Hm. induction arrays as [|array arrays IH] using rev_ind; intros Hlen Hall.
  - unfold build. rewrite Create_Ok by done. cbn [foldl]. eexists. split; [done |].
    split; [by eapply (Reachable_create n m), Create_Ok |]. split; [done |].
    intros i. apply used_elements_nil. by eapply length_of_replicate.
  - rewrite length_app in Hlen. simpl in Hlen.
    apply Forall_app in Hall as [Hall Harray]. apply Forall_inv in Harray.
    destruct IH as (o & Ho & Hreach & Hcur & Hused); [lia | done |].
    destruct (build_cursor n m arrays) as (o0 & Ho0 & Hvalid & _ & Hnum & Hmax);
      try done; try lia.
    rewrite Ho in Ho0. injection Ho0 as <-.
    destruct (Append_Ok o array (length array) Hvalid)
      as (o' & Ho' & _ & Hcur' & _ & _ & Hused'); [lia | lia | lia |].
    destruct (Append_Ok_other _ _ _ _ Hvalid Ho') as (_ & _ & Hframe).
    exists o'. split_and!.
    + unfold build in *. by rewrite foldl_app, Ho; cbn [foldl]; rewrite Ho'.
    + by eapply Reachable_append.
    + rewrite length_app. simpl. lia.
    + intros i. destruct (decide (i = length arrays)) as [->|Hne].
      * rewrite <- Hcur, Hused', Hcur. rewrite firstn_all.
        by rewrite lookup_app_r, Nat.sub_diag by lia.
      * destruct (Hframe i) as (_ & _ & ->); [lia |]. rewrite Hused.
        destruct (decide (i < length arrays)) as [Hlt|Hge].
        -- by rewrite lookup_app_l by done.
        -- rewrite !lookup_ge_None_2; [done | | lia].
           rewrite length_app. simpl. lia.
Qed.

Lemma build_round_trip_witness :
  ∃ o, build 2 5 [[1; 2; 3; 2; 1]; [4; 5; 6]]%N = Some o ∧
       used_elements o 0 = [1; 2; 3; 2; 1]%N ∧ used_elements o 1 = [4; 5; 6]%N.
Proof.
  destruct (build_round_trip 2 5 [[1; 2; 3; 2; 1]; [4; 5; 6]]%N)
    as (o & Ho & _ & _ & Hused).
  - lia.
  - lia.
  - simpl. lia.
  - repeat constructor; simpl; lia.
  - exists o. split; [exact Ho |]. split; apply Hused.
Defined.

(** ** Intersection: failures *)

(** X6: the assertions an intersection call can fail on, in the order the
    source checks them: a NULL object, a NULL data block, a data length of 0, a
    mode other than the supported one, a data length above the maximum array
    length, and (in the creation of the result) a number of arrays of 0. No
    other assertion can fail; in particular the assertion of the creation on
    the maximum array length cannot. *)
Theorem Intersect_assertions (MODE : Z) (fresh : nat → bool)
    (object : option Document_Word_List) (data : option (list N)) (data_length : nat)
    (mode : Z) (a : Assertion) :
  Intersect_Data_With_Document_Word_List MODE fresh object data data_length mode
    = Assert_failed a ↔
  match object, data with
  | None, _ => a = Object_is_NULL
  | Some o, None => a = data_is_NULL
  | Some o, Some query =>
    if decide (data_length = 0) then a = data_length_is_0
    else if decide (mode ≠ MODE) then a = Invalid_intersection_mode
    else if decide (o.(max_array_length) < data_length) then a = data_is_too_large
    else o.(number_of_arrays) = 0 ∧ a = Number_of_arrays_is_0
  end.
Proof.
  unfold Intersect_Data_With_Document_Word_List.
  destruct object as [o|]; [| split; congruence].
  destruct data as [query|]; [| split; congruence].
  destruct (Nat.eqb_spec data_length 0) as [->|Hpos]; step_assert;
    [rewrite decide_True by done; split; congruence |].
  rewrite decide_False by done.
  destruct (Z.eqb_spec mode MODE) as [->|Hmode]; step_assert;
    [| rewrite decide_True by done; split; congruence].
  rewrite decide_False by (by intros ?).
  destruct (Nat.leb_spec data_length o.(max_array_length)) as [Hmax|Hmax]; step_assert;
    [| rewrite decide_True by done; split; congruence].
  rewrite decide_False by lia.
  destruct (decide (o.(number_of_arrays) = 0)) as [Hzero|Hn].
  - unfold Create_Document_Word_List. rewrite Hzero. step_assert.
    split; [intros [= <-]; done | by intros [_ ->]].
  - rewrite Create_Ok by lia. step_assert. split; [| by intros [? _]].
    intros Hfail. exfalso. revert Hfail.
    apply bind_no_assert; [apply intersection_loops_no_assert | done].
Qed.

Lemma Intersect_assertions_witness :
  Intersect_Data_With_Document_Word_List 0 cleared (Some scenario_container)
    (Some [1; 2; 3; 4; 5; 6]%N) 6 0 = Assert_failed data_is_too_large.
Proof.
  by apply (Intersect_assertions 0 cleared (Some scenario_container)
              (Some [1; 2; 3; 4; 5; 6]%N) 6 0 data_is_too_large).
Defined.

(** X7: on a valid container, with the data block of at least [data_length]
    values the caller promises and arguments the assertions accept, the call
    makes no access out of bounds to the object, the data or the result; the
    only access out of bounds it can make is to the multiple guard, and then a
    value of 1000 or more is in an array and in the data. *)
Theorem Intersect_overruns_only_the_guard (MODE : Z) (fresh : nat → bool)
    (object : Document_Word_List) (query : list N) (data_length : nat) (b : Block) :
  Valid object → 0 < data_length ≤ object.(max_array_length) →
  data_length ≤ length query →
  Intersect_Data_With_Document_Word_List MODE fresh (Some object) (Some query)
    data_length MODE = Out_of_bounds b →
  b = Block_multiple_guard ∧
  ∃ i v, v ∈ used_elements object i ∧ v ∈ take data_length query ∧ (1000 ≤ v)%N.
Proof.
  intros Hvalid [Hpos Hmax] Hquery Hfail.
  pose proof (Intersect_guarded MODE fresh object query data_length
                Hvalid Hpos Hmax Hquery) as Hguarded.
  rewrite Hfail in Hguarded. simpl in Hguarded.
  destruct b; try done. split; [done |].
  destruct Hguarded as (i & v & [Hv Hq] & Hlarge). by exists i, v.
Qed.

Lemma Intersect_overruns_only_the_guard_witness :
  ∃ i v, v ∈ used_elements (single 1000) i ∧ v ∈ take 1 [1000%N] ∧ (1000 ≤ v)%N.
Proof.
  refine (proj2 (Intersect_overruns_only_the_guard 0 cleared (single 1000) [1000%N] 1
                   Block_multiple_guard _ _ _ _)).
  - apply single_Valid.
  - simpl. lia.
  - simpl. lia.
  - vm_compute. reflexivity.
Defined.

(** X8: when no value in use in the container is one of the first
    [data_length] values of the data, the call returns a container whose
    arrays are all empty, however large the values are: the guard is read
    and grown only for a value that is matched. *)
Theorem Intersect_of_disjoint_values (MODE : Z) (fresh : nat → bool)
    (object : Document_Word_List) (query : list N) (data_length : nat) :
  Valid object → 0 < data_length ≤ object.(max_array_length) →
  data_length ≤ length query →
  (∀ i v, v ∈ used_elements object i → v ∉ take data_length query) →
  ∃ r, Intersect_Data_With_Document_Word_List MODE fresh (Some object) (Some query)
         data_length MODE = Ok r ∧
       ∀ i, length_of r i = 0 ∧ used_elements r i = [].
Proof.
  intros Hvalid [Hpos Hmax] Hquery Hdisjoint.
  destruct (Intersect_total MODE fresh object query data_length) as (r & Hr & HP);
    try done.
  { intros i v [Hv Hq]. by destruct (Hdisjoint i v). }
  exists r. split; [done |]. intros i.
  pose proof HP as (Hshape & Hlay & Hlens & Hdone).
  assert (used_elements r i = []) as Hnil.
  { destruct (Hdone i) as (_ & Hsound & _).
    destruct (used_elements r i) as [|v l] eqn:E; [done |].
    destruct (Hsound v) as [Hv Hq]; [by left |]. by destruct (Hdisjoint i v). }
  split; [| done].
  destruct (decide (i < r.(number_of_arrays))) as [Hi|Hi].
  - rewrite <- (used_elements_length r i), Hnil; [done |].
    rewrite Layout_array_length by done. apply Hlens.
  - apply length_of_outside; [done | lia].
Qed.

Lemma Intersect_of_disjoint_values_witness :
  ∃ r, Intersect_Data_With_Document_Word_List 0 dirty (Some (single 70000))
         (Some [5000]%N) 1 0 = Ok r ∧
       ∀ i, length_of r i = 0 ∧ used_elements r i = [].
Proof.
  apply (Intersect_of_disjoint_values 0 dirty (single 70000) [5000%N] 1).
  - apply single_Valid.
  - simpl. lia.
  - simpl. lia.
  - intros [|i] v Hv Hq.
    + apply list_elem_of_singleton in Hv. apply list_elem_of_singleton in Hq. congruence.
    + rewrite used_elements_nil in Hv; [by apply elem_of_nil in Hv |].
      apply length_of_outside; [apply single_Valid | simpl; lia].
Defined.

(** ** Intersection: the order of the result *)

Lemma guarded_and {A} (G : Prop) (I J : A → Prop) (m : Outcome A) :
  guarded G I m → (∀ a, m = Ok a → I a → J a) → guarded G (λ a, I a ∧ J a) m.
Proof. destruct m as [a|a|[]]; simpl; auto. Qed.

Lemma pass_step_nil (base : list N) (x : N) : pass_step [] base x = base.
Proof. unfold pass_step. rewrite decide_False; [done |]. by intros [?%elem_of_nil _]. Qed.

Lemma first_matches_snoc (query l : list N) (x : N) :
  first_matches query (l ++ [x]) = pass_step query (first_matches query l) x.
Proof. unfold first_matches. by rewrite foldl_app. Qed.

(** One more value of the data compared with the element [x]. *)
Lemma pass_step_snoc (l base : list N) (x q : N) :
  (if decide (x = q ∧ x ∉ pass_step l base x)
   then pass_step l base x ++ [x] else pass_step l base x)
  = pass_step (l ++ [q]) base x.
Proof.
  unfold pass_step.
  destruct (decide (x ∈ l ∧ x ∉ base)) as [[Hl Hb]|Hno].
  - rewrite decide_False
      by (intros [_ Hnew]; apply Hnew, elem_of_app; right; by apply list_elem_of_singleton).
    by rewrite decide_True by (split; [apply elem_of_app; by left | done]).
  - destruct (decide (x = q ∧ x ∉ base)) as [[-> Hb]|Hno'].
    + by rewrite decide_True
        by (split; [apply elem_of_app; right; by apply list_elem_of_singleton | done]).
    + rewrite decide_False; [done |].
      intros [[Hl| ->%list_elem_of_singleton]%elem_of_app Hb]; [by apply Hno |].
      by apply Hno'.
Qed.

Lemma used_elements_appended (r : Document_Word_List) (i : nat) (y : N) :
  i < length r.(data) → i < length r.(arrays_lengths) →
  length_of r i < length (array_of r i) →
  used_elements (appended i y r) i = used_elements r i ++ [y].
Proof. apply used_elements_append. Qed.

Lemma appended_other (r : Document_Word_List) (i j : nat) (y : N) :
  i ≠ j →
  array_of (appended i y r) j = array_of r j ∧
  length_of (appended i y r) j = length_of r j ∧
  used_elements (appended i y r) j = used_elements r j.
Proof.
  intros Hij. unfold used_elements, array_of, length_of, appended; simpl.
  by rewrite !list_lookup_insert_ne by done.
Qed.

Lemma Zero_Tail_appended (r : Document_Word_List) (i j : nat) (y : N) :
  i < length r.(data) → i < length r.(arrays_lengths) →
  length_of r i < length (array_of r i) →
  length (array_of r i) = r.(max_array_length) →
  Zero_Tail r j → Zero_Tail (appended i y r) j.
Proof.
  intros Hd Hl Hroom Hmax Hzero. unfold Zero_Tail in *.
  destruct (decide (i = j)) as [<-|Hne].
  - rewrite used_elements_appended by done.
    assert (length (used_elements r i) = length_of r i) as Hused
      by (apply used_elements_length; lia).
    unfold array_of at 1, length_of at 1, appended; simpl.
    rewrite !list_lookup_insert_eq by done. simpl.
    rewrite Hzero at 1. rewrite insert_app_r_alt by lia.
    rewrite Hused, Nat.sub_diag.
    destruct (r.(max_array_length) - length_of r i) as [|k] eqn:Hk; [lia |].
    replace (r.(max_array_length) - S (length_of r i)) with k by lia.
    simpl. by rewrite <- app_assoc.
  - destruct (appended_other r i j y Hne) as (-> & -> & ->). done.
Qed.

Section Ordered_Loops.

Variable fresh : nat → bool.
Variable object : Document_Word_List.
Variable query : list N.
Variable data_length : nat.

Hypothesis object_valid : Valid object.
Hypothesis query_block : data_length ≤ length query.
Hypothesis addressable : Addressable object query data_length.

Abbreviation Within := (Within object query data_length).
Abbreviation Between := (Between object query data_length).
Abbreviation Overrun := (Overrun object query data_length).
Abbreviation Ordered_Within := (Ordered_Within object query data_length).
Abbreviation Ordered_Between := (Ordered_Between object query data_length).

Lemma grow_multiple_guard_id (i i2 i3 : nat) (y : N) (st : Loop_State) :
  matched object query data_length i y → Within i i2 i3 st →
  grow_multiple_guard fresh y st = st.
Proof.
  intros Hy [[_ _ _ _ _ Hsmall _ _] _ _ _ _ _]. unfold grow_multiple_guard.
  rewrite (Hsmall addressable). specialize (addressable i y Hy).
  destruct (N.ltb_spec (N.of_nat multiple_guard_realloc_step) y); [lia | done].
Qed.

Lemma add_to_result_exact (i i2 i3 : nat) (y : N) (st st' : Loop_State) :
  Within i i2 i3 st →
  add_to_result i y st = Ok st' →
  (st' = st ∧ y ∈ used_elements st.(intersection_result) i) ∨
  ((y ∉ used_elements st.(intersection_result) i) ∧
   st'.(intersection_result) = appended i y st.(intersection_result) ∧
   i < length st.(intersection_result).(data) ∧
   i < length st.(intersection_result).(arrays_lengths) ∧
   length_of st.(intersection_result) i < length (array_of st.(intersection_result) i)).
Proof.
  intros [_ _ _ Hmarks Hexact _]. unfold add_to_result, load.
  destruct (st.(multiple_guard) !! N.to_nat y) as [[|]|] eqn:Hseen; simpl; [| | done].
  - intros [= <-]. left. split; [done |].
    destruct (Hexact addressable _ Hseen) as (v & Hv & Heq).
    by apply N2Nat.inj in Heq as <-.
  - assert (y ∉ used_elements st.(intersection_result) i) as Hnew.
    { intros Hin. apply Hmarks in Hin. congruence. }
    destruct (st.(intersection_result).(arrays_lengths) !! i) as [used|] eqn:Hused;
      simpl; [| done].
    destruct (st.(intersection_result).(data) !! i) as [array|] eqn:Harray;
      simpl; [| done].
    unfold store.
    destruct (decide (used < length array)) as [Hroom|Hroom];
      [rewrite (bool_decide_eq_true_2 (used < length array)) by done
      | by rewrite (bool_decide_eq_false_2 (used < length array)) by done].
    simpl.
    destruct (decide (i < length st.(intersection_result).(arrays_lengths))) as [Hl|Hl];
      [rewrite (bool_decide_eq_true_2 (i < length _)) by done
      | by rewrite (bool_decide_eq_false_2 (i < length _)) by done].
    simpl. case_bool_decide; simpl; [| done].
    intros [= <-]. right. simpl.
    assert (length_of st.(intersection_result) i = used) as Hlen
      by (unfold length_of; by rewrite Hused).
    assert (array_of st.(intersection_result) i = array) as Harr
      by (unfold array_of; by rewrite Harray).
    split_and!; try done.
    + unfold appended. by rewrite Hlen, Harr.
    + by apply lookup_lt_Some in Harray.
    + by rewrite Hlen, Harr.
Qed.

Lemma compare_elements_ordered (i i2 i3 : nat) (st st' : Loop_State) :
  i < object.(number_of_arrays) → i2 < length_of object i → i3 < data_length →
  Within i i2 i3 st → Ordered_Within i i2 i3 st →
  compare_elements fresh object query i i2 i3 st = Ok st' →
  Ordered_Within i i2 (S i3) st'.
Proof.
  intros Hi Hi2 Hi3 HW (Hpassed & Hzero & Hused).
  pose proof object_valid as [HL HI].
  pose proof (Layout_array_length _ _ HL Hi) as Harray_len.
  pose proof (Valid_length_of _ i object_valid) as Hlen_i.
  assert (object.(data) !! i = Some (array_of object i)) as Harray.
  { unfold array_of. destruct HL as (_ & _ & Hdata & _).
    destruct (lookup_lt_is_Some_2 object.(data) i) as [a Ha]; [lia |]. by rewrite Ha. }
  destruct (lookup_lt_is_Some_2 (array_of object i) i2) as [x Hx]; [lia |].
  destruct (lookup_lt_is_Some_2 query i3) as [q Hq]; [lia |].
  rewrite Hx in Hused. cbn zeta in Hused.
  unfold compare_elements, load. rewrite Harray. simpl. rewrite Hx. simpl.
  rewrite Hq. simpl.
  assert (take (S i3) query = take i3 query ++ [q]) as Htake by by apply take_S_r.
  unfold Ordered_Within. rewrite Hx, Htake. cbn zeta.
  rewrite <- pass_step_snoc, <- Hused.
  destruct (N.eqb_spec x q) as [->|Hne].
  - assert (matched object query data_length i q) as Hm.
    { split.
      - apply used_elements_lookup. by exists i2.
      - apply list_elem_of_lookup. exists i3. by rewrite lookup_take_lt. }
    rewrite (grow_multiple_guard_id i i2 i3) by done.
    intros Hadd. destruct (add_to_result_exact i i2 i3 q st st' HW Hadd)
      as [[-> Hin]|(Hnew & -> & Hd & Hl & Hroom)].
    + split; [done |]. split; [done |]. rewrite decide_False; [done |]. by intros [_ ?].
    + destruct HW as [[Hshape Hlay _ _ _ _ _ _] _ _ _ _ _].
      destruct Hshape as (Hn & _).
      split_and!.
      * intros j Hj. unfold Passed.
        destruct (appended_other st.(intersection_result) i j q) as (_ & _ & ->); [lia |].
        by apply Hpassed.
      * intros j Hj. apply Zero_Tail_appended; try done; [| by apply Hzero].
        apply Layout_array_length; [done | lia].
      * rewrite used_elements_appended by done. by rewrite decide_True.
  - intros [= <-]. split; [done |]. split; [done |].
    rewrite decide_False; [done |]. by intros [? _].
Qed.

Lemma compare_with_data_ordered (i i2 : nat) (st : Loop_State) :
  i < object.(number_of_arrays) → i2 < length_of object i →
  Within i i2 0 st → Ordered_Within i i2 0 st →
  guarded Overrun (λ st', Within i (S i2) 0 st' ∧ Ordered_Within i (S i2) 0 st')
    (compare_with_data fresh object query data_length i i2 st).
Proof.
  intros Hi Hi2 HW HO.
  pose proof object_valid as [HL HI].
  pose proof (Layout_array_length _ _ HL Hi) as Harray_len.
  pose proof (Valid_length_of _ i object_valid) as Hlen_i.
  destruct (lookup_lt_is_Some_2 (array_of object i) i2) as [x Hx]; [lia |].
  apply guarded_and; [by apply compare_with_data_guarded |].
  intros st' Hst' _. revert Hst'. unfold compare_with_data. intros Hst'.
  assert (guarded Overrun (λ st', Within i i2 (0 + data_length) st' ∧
                                  Ordered_Within i i2 (0 + data_length) st')
            (for_loop data_length 0 (compare_elements fresh object query i i2) st))
    as Hloop.
  { apply (for_loop_guarded Overrun (λ i3 st', Within i i2 i3 st' ∧ Ordered_Within i i2 i3 st'));
      [done |].
    intros k s Hk [Hs Ho]. apply guarded_and.
    - apply compare_elements_guarded; [done | done | done | done | lia | done].
    - intros s' Hs' _.
      apply (compare_elements_ordered i i2 k s s'); [done | done | lia | done | done | done]. }
  rewrite Hst' in Hloop. destruct Hloop as [_ (Hpassed & Hzero & Hused)].
  split; [done |]. split; [done |].
  rewrite Hx in Hused. cbn zeta in Hused. simpl in Hused.
  rewrite Hused. rewrite (take_S_r _ _ x) by done.
  rewrite first_matches_snoc.
  cbn zeta. destruct (array_of object i !! S i2); [by rewrite take_0, pass_step_nil | done].
Qed.

Lemma intersect_array_ordered (i : nat) (st : Loop_State) :
  i < object.(number_of_arrays) →
  Between i st → Ordered_Between i st →
  guarded Overrun (λ st', Between (S i) st' ∧ Ordered_Between (S i) st')
    (intersect_array fresh object query data_length i st).
Proof.
  intros Hi HB [Hpassed Hzero].
  apply guarded_and; [by apply intersect_array_guarded |].
  intros st' Hst' _. revert Hst'.
  pose proof HB as [HC Hempty].
  pose proof HC as [Hshape Hlay Hlens Hguard Hsize Hsmall Hdone Hunt].
  pose proof object_valid as [HL HI].
  unfold intersect_array, load.
  assert (object.(arrays_lengths) !! i = Some (length_of object i)) as Hused.
  { unfold length_of. destruct HL as (_ & _ & _ & _ & Hlengths).
    destruct (lookup_lt_is_Some_2 object.(arrays_lengths) i) as [u Hu]; [lia |].
    by rewrite Hu. }
  rewrite Hused. simpl. intros Hst'.
  match type of Hst' with for_loop _ _ _ ?s = _ =>
    assert (guarded Overrun (λ st', Within i (0 + length_of object i) 0 st' ∧
                                    Ordered_Within i (0 + length_of object i) 0 st')
              (for_loop (length_of object i) 0
                 (compare_with_data fresh object query data_length i) s)) as Hloop
  end.
  { apply (for_loop_guarded Overrun
             (λ i2 st', Within i i2 0 st' ∧ Ordered_Within i i2 0 st')).
    - split.
      + split; simpl.
        * split; simpl; try done. by rewrite length_replicate.
        * rewrite used_elements_nil by done. constructor.
        * rewrite used_elements_nil by done. by intros v ?%elem_of_nil.
        * rewrite used_elements_nil by done. by intros v ?%elem_of_nil.
        * intros _ k Hk. apply lookup_replicate in Hk as [? _]. done.
        * intros _ a b v Hab. lia.
      + split; [done |]. split; [done |]. simpl.
        rewrite used_elements_nil by done. rewrite !take_0.
        destruct (array_of object i !! 0); [by rewrite pass_step_nil | done].
    - intros k s Hk [Hs Ho]. apply compare_with_data_ordered; [done | lia | done | done]. }
  rewrite Hst' in Hloop. destruct Hloop as [_ (Hpassed' & Hzero' & Hused')].
  split; [| done]. intros j Hj. destruct (decide (j = i)) as [->|Hne]; [| apply Hpassed'; lia].
  unfold Passed. rewrite Hused'. simpl.
  destruct (array_of object i !! length_of object i);
    [by rewrite take_0, pass_step_nil | done].
Qed.

Lemma intersection_loops_ordered (st : Loop_State) :
  Between 0 st → Ordered_Between 0 st →
  guarded Overrun
    (λ st', (∀ j, Passed object query data_length st'.(intersection_result) j) ∧
            ∀ j, j < object.(number_of_arrays) → Zero_Tail st'.(intersection_result) j)
    (intersection_loops fresh object query data_length st).
Proof.
  intros HB HO. unfold intersection_loops.
  eapply guarded_mono.
  { apply (for_loop_guarded Overrun (λ i st', Between i st' ∧ Ordered_Between i st'));
      [done |].
    intros k s Hk [Hs Ho]. apply intersect_array_ordered; [lia | done | done]. }
  simpl. intros st' [[HC _] [Hpassed Hzero]]. split; [| done].
  intros j. destruct (decide (j < object.(number_of_arrays))) as [Hj|Hj];
    [by apply Hpassed |].
  destruct HC as [(Hn & _) Hlay _ _ _ _ _ _]. pose proof object_valid as [HL _].
  unfold Passed. rewrite !used_elements_nil; [done | |];
    apply length_of_outside; (done || lia).
Qed.

End Ordered_Loops.

Lemma first_matches_spec (query l : list N) :
  NoDup (first_matches query l) ∧
  ∀ v, v ∈ first_matches query l ↔ v ∈ l ∧ v ∈ query.
Proof.
  induction l as [|x l [Hnd Hin]] using rev_ind.
  - split; [constructor |]. intros v. split; [by intros ?%elem_of_nil |].
    by intros [?%elem_of_nil _].
  - rewrite first_matches_snoc. unfold pass_step.
    destruct (decide (x ∈ query ∧ x ∉ first_matches query l)) as [[Hq Hnew]|Hno].
    + split.
      * apply NoDup_app. split; [done |]. split; [| apply NoDup_singleton].
        by intros v Hv ->%list_elem_of_singleton.
      * intros v. rewrite !elem_of_app, Hin, !list_elem_of_singleton. split.
        -- intros [[? ?]| ->]; auto.
        -- intros [[?| ->] ?]; auto.
    + split; [done |]. intros v. rewrite Hin, elem_of_app, list_elem_of_singleton.
      split; [intros [? ?]; auto |]. intros [[?| ->] Hq]; [done |].
      destruct (decide (x ∈ first_matches query l)) as [Hx|Hx]; [by apply Hin in Hx |].
      destruct Hno. done.
Qed.

(** A list without repetition whose values are all in the query is its own
    list of first matches. *)
Lemma first_matches_id (query l : list N) :
  NoDup l → (∀ v, v ∈ l → v ∈ query) → first_matches query l = l.
Proof.
  induction l as [|x l IH] using rev_ind; intros Hnd Hin; [done |].
  apply NoDup_app in Hnd as (Hnd & Hx & _).
  rewrite first_matches_snoc, IH; [| done |].
  - unfold pass_step. rewrite decide_True; [done |]. split.
    + apply Hin, elem_of_app. right. by apply list_elem_of_singleton.
    + intros Hl. apply (Hx x Hl). by apply list_elem_of_singleton.
  - intros v Hv. apply Hin, elem_of_app. by left.
Qed.

(** The first matches depend on the values of the query, not on their order
    or their number. *)
Lemma first_matches_same_values (query query' l : list N) :
  (∀ v, v ∈ query ↔ v ∈ query') → first_matches query l = first_matches query' l.
Proof.
  intros Hsame. induction l as [|x l IH] using rev_ind; [done |].
  rewrite !first_matches_snoc, IH. unfold pass_step.
  destruct (decide (x ∈ query ∧ x ∉ first_matches query' l)) as [[Hq Hn]|Hno].
  - rewrite decide_True; [done |]. split; [by apply Hsame | done].
  - rewrite decide_False; [done |]. intros [Hq Hn]. apply Hno. split; [by apply Hsame | done].
Qed.

(** The loop variables when the loops start. *)
Lemma initial_state (object : Document_Word_List) (query : list N) (data_length : nat)
    (created : Document_Word_List) :
  Valid object →
  Create_Document_Word_List object.(number_of_arrays) object.(max_array_length)
    = Ok created →
  Between object query data_length 0
    {| intersection_result :=
         set_intersection_data true (set_next_free_array object.(next_free_array) created);
       size_multiple_guard := multiple_guard_realloc_step;
       multiple_guard := replicate multiple_guard_realloc_step false |} ∧
  Ordered_Between object query data_length 0
    {| intersection_result :=
         set_intersection_data true (set_next_free_array object.(next_free_array) created);
       size_multiple_guard := multiple_guard_realloc_step;
       multiple_guard := replicate multiple_guard_realloc_step false |}.
Proof.
  intros Hvalid Hcreated. pose proof Hvalid as [(Hn & Hm & _) _].
  rewrite Create_Ok in Hcreated by done. injection Hcreated as <-.
  split.
  - split; [| by eapply length_of_replicate].
    split; cbn [intersection_result size_multiple_guard multiple_guard]; try done.
    + unfold Layout; simpl. rewrite !length_replicate. split_and!; try done.
      apply Forall_replicate. by rewrite length_replicate.
    + intros j. erewrite length_of_replicate by done. lia.
    + intros j Hj. lia.
    + intros j Hj. by eapply length_of_replicate.
  - split; [intros j Hj; lia |]. intros j Hj. unfold Zero_Tail.
    cbn [intersection_result].
    rewrite used_elements_nil by (by eapply length_of_replicate).
    erewrite length_of_replicate by done.
    unfold array_of; simpl. rewrite lookup_replicate_2 by done. simpl.
    by rewrite Nat.sub_0_r.
Qed.

(** On addressable values the call returns a result whose arrays are the
    first matches, followed by zeros. *)
Lemma Intersect_ordered (MODE : Z) (fresh : nat → bool)
    (object : Document_Word_List) (query : list N) (data_length : nat) :
  Valid object → 0 < data_length ≤ object.(max_array_length) →
  data_length ≤ length query →
  Addressable object query data_length →
  ∃ r, Intersect_Data_With_Document_Word_List MODE fresh (Some object) (Some query)
         data_length MODE = Ok r ∧
       Post object query data_length r ∧
       (∀ j, Passed object query data_length r j) ∧
       (∀ j, j < object.(number_of_arrays) → Zero_Tail r j).
Proof.
  intros Hvalid [Hpos Hmax] Hquery HA. pose proof Hvalid as [(Hn & Hm & _) _].
  assert (¬ Overrun object query data_length) as Hno.
  { intros (i & v & Hv & Hlarge). specialize (HA i v Hv).
    unfold multiple_guard_realloc_step in *. lia. }
  unfold Intersect_Data_With_Document_Word_List.
  destruct (Nat.eqb_spec data_length 0) as [->|_]; [lia |]. step_assert.
  rewrite Z.eqb_refl. step_assert.
  destruct (Nat.leb_spec data_length object.(max_array_length)); [| lia]. step_assert.
  destruct (Create_Document_Word_List object.(number_of_arrays) object.(max_array_length))
    as [created| |] eqn:Hcreated; [| by rewrite Create_Ok in Hcreated..].
  step_assert.
  destruct (initial_state object query data_length created Hvalid Hcreated) as [HB HO].
  destruct (guarded_total _ _ _
              (intersection_loops_guarded fresh object query data_length
                 Hvalid Hquery _ HB) Hno) as (st' & Hst' & HP).
  pose proof (intersection_loops_ordered fresh object query data_length
                Hvalid Hquery HA _ HB HO) as Hordered.
  rewrite Hst' in Hordered. destruct Hordered as [Hpassed Hzero].
  rewrite Hst'. step_assert. by exists st'.(intersection_result).
Qed.

(** X9: on addressable values, the call returns, and array [i] of the result
    holds the values in use of array [i] of the object that are among the
    first [data_length] values of the data, each once, in the order of their
    first occurrence in the array; the cells after them are 0. *)
Theorem Intersect_first_matches (MODE : Z) (fresh : nat → bool)
    (object : Document_Word_List) (query : list N) (data_length : nat) :
  Valid object → 0 < data_length ≤ object.(max_array_length) →
  data_length ≤ length query →
  Addressable object query data_length →
  ∃ r, Intersect_Data_With_Document_Word_List MODE fresh (Some object) (Some query)
         data_length MODE = Ok r ∧
       (∀ i, used_elements r i
             = first_matches (take data_length query) (used_elements object i)) ∧
       (∀ i, i < object.(number_of_arrays) →
             array_of r i
             = used_elements r i ++ replicate (r.(max_array_length) - length_of r i) 0%N).
Proof.
  intros Hvalid Hlen Hquery HA.
  destruct (Intersect_ordered MODE fresh object query data_length Hvalid Hlen Hquery HA)
    as (r & Hr & _ & Hpassed & Hzero).
  exists r. split; [done |]. split; [apply Hpassed | apply Hzero].
Qed.

Lemma Intersect_first_matches_witness :
  ∃ r, Intersect_Data_With_Document_Word_List 0 dirty (Some scenario_container)
         (Some [2; 4; 1; 2]%N) 4 0 = Ok r ∧
       used_elements r 0 = [1; 2]%N ∧ used_elements r 1 = [4]%N.
Proof.
  destruct (Intersect_first_matches 0 dirty scenario_container [2; 4; 1; 2]%N 4)
    as (r & Hr & Hused & _).
  - compute_done.
  - simpl. lia.
  - simpl. lia.
  - apply Addressable_small. intros v Hv. simpl in Hv.
    repeat (apply elem_of_cons in Hv as [->|Hv]; [done |]). by apply elem_of_nil in Hv.
  - exists r. split; [exact Hr |]. split; rewrite Hused; reflexivity.
Defined.

(** ** Intersection: composition *)

(** Two containers of the same shape with the same elements in use, and zeros
    after them, are the same container. *)
Lemma container_eq (r r' : Document_Word_List) :
  Layout r → Layout r' →
  r.(number_of_arrays) = r'.(number_of_arrays) →
  r.(max_array_length) = r'.(max_array_length) →
  r.(next_free_array) = r'.(next_free_array) →
  r.(intersection_data) = r'.(intersection_data) →
  (∀ j, length_of r j ≤ r.(max_array_length)) →
  (∀ j, length_of r' j ≤ r'.(max_array_length)) →
  (∀ j, used_elements r j = used_elements r' j) →
  (∀ j, j < r.(number_of_arrays) → Zero_Tail r j ∧ Zero_Tail r' j) →
  r = r'.
Proof.
  intros HL HL' Hn Hm Hnext Hflag Hlens Hlens' Hused Hzero.
  assert (∀ j, length_of r j = length_of r' j) as Hlen.
  { intros j. destruct (decide (j < r.(number_of_arrays))) as [Hj|Hj].
    - rewrite <- (used_elements_length r j), <- (used_elements_length r' j).
      + by rewrite Hused.
      + rewrite Layout_array_length by (done || lia). apply Hlens'.
      + rewrite Layout_array_length by done. apply Hlens.
    - rewrite !length_of_outside; (done || lia). }
  assert (r.(data) = r'.(data)) as Hdata.
  { apply list_eq. intros j.
    pose proof HL as (_ & _ & Hd & _). pose proof HL' as (_ & _ & Hd' & _).
    destruct (decide (j < r.(number_of_arrays))) as [Hj|Hj].
    - destruct (Hzero j Hj) as [Hz Hz']. unfold Zero_Tail in *.
      rewrite <- Hused, <- Hlen, <- Hm, <- Hz in Hz'. unfold array_of in Hz'.
      destruct (lookup_lt_is_Some_2 r.(data) j) as [a Ha]; [lia |].
      destruct (lookup_lt_is_Some_2 r'.(data) j) as [a' Ha']; [lia |].
      rewrite Ha, Ha' in *. simpl in Hz'. by rewrite Hz'.
    - rewrite !lookup_ge_None_2; (done || lia). }
  assert (r.(arrays_lengths) = r'.(arrays_lengths)) as Hlengths.
  { apply list_eq. intros j.
    pose proof HL as (_ & _ & _ & _ & Hl). pose proof HL' as (_ & _ & _ & _ & Hl').
    destruct (decide (j < r.(number_of_arrays))) as [Hj|Hj].
    - specialize (Hlen j). unfold length_of in Hlen.
      destruct (lookup_lt_is_Some_2 r.(arrays_lengths) j) as [u Hu]; [lia |].
      destruct (lookup_lt_is_Some_2 r'.(arrays_lengths) j) as [u' Hu']; [lia |].
      rewrite Hu, Hu' in *. simpl in Hlen. by rewrite Hlen.
    - rewrite !lookup_ge_None_2; (done || lia). }
  destruct r, r'. simpl in *. by subst.
Qed.

(** X10: on addressable values, the intersection of the result of a call with
    the same data is that result again: cell for cell, length for length. *)
Theorem Intersect_idempotent (MODE : Z) (fresh fresh' : nat → bool)
    (object : Document_Word_List) (query : list N) (data_length : nat) :
  Valid object → 0 < data_length ≤ object.(max_array_length) →
  data_length ≤ length query →
  Addressable object query data_length →
  ∃ r, Intersect_Data_With_Document_Word_List MODE fresh (Some object) (Some query)
         data_length MODE = Ok r ∧
       Intersect_Data_With_Document_Word_List MODE fresh' (Some r) (Some query)
         data_length MODE = Ok r.
Proof.
  intros Hvalid Hlen Hquery HA.
  destruct (Intersect_ordered MODE fresh object query data_length Hvalid Hlen Hquery HA)
    as (r & Hr & HP & Hpassed & Hzero).
  exists r. split; [done |].
  pose proof (Post_Valid _ _ _ _ Hvalid HP) as Hvalid_r.
  pose proof HP as ((Hn & Hm & Hnext & Hflag) & Hlay & Hlens & Hdone).
  assert (Addressable r query data_length) as HA_r.
  { intros i v [Hv Hq]. apply (HA i). by destruct (Hdone i) as (_ & Hsound & _); apply Hsound. }
  destruct (Intersect_ordered MODE fresh' r query data_length Hvalid_r)
    as (r' & Hr' & HP' & Hpassed' & Hzero'); [lia | done | done |].
  rewrite Hr'. f_equal.
  pose proof HP' as ((Hn' & Hm' & Hnext' & Hflag') & Hlay' & Hlens' & _).
  apply container_eq; try done; try congruence.
  - intros j. rewrite (Hpassed' j). apply first_matches_id.
    + by destruct (Hdone j) as [Hnd _].
    + intros v Hv. destruct (Hdone j) as (_ & Hsound & _). by apply Hsound.
  - intros j Hj. split; [apply Hzero'; lia | apply Hzero; lia].
Qed.

Lemma Intersect_idempotent_witness :
  ∃ r, Intersect_Data_With_Document_Word_List 0 cleared (Some scenario_container)
         (Some scenario_query) 3 0 = Ok r ∧
       Intersect_Data_With_Document_Word_List 0 dirty (Some r)
         (Some scenario_query) 3 0 = Ok r.
Proof.
  apply (Intersect_idempotent 0 cleared dirty scenario_container scenario_query 3).
  - compute_done.
  - simpl. lia.
  - simpl. lia.
  - apply Addressable_small. intros v Hv. simpl in Hv.
    repeat (apply elem_of_cons in Hv as [->|Hv]; [done |]). by apply elem_of_nil in Hv.
Defined.

(** X11: on addressable values, the result depends on the data only through
    the set of its first [data_length] values: two data blocks with the same
    values, in any order and with any repetitions, give the same container,
    cell for cell, whatever [REALLOC] leaves in the cells it adds. *)
Theorem Intersect_same_values (MODE : Z) (fresh fresh' : nat → bool)
    (object : Document_Word_List) (query query' : list N) (data_length data_length' : nat) :
  Valid object →
  0 < data_length ≤ object.(max_array_length) → data_length ≤ length query →
  0 < data_length' ≤ object.(max_array_length) → data_length' ≤ length query' →
  Addressable object query data_length →
  (∀ v, v ∈ take data_length query ↔ v ∈ take data_length' query') →
  ∃ r, Intersect_Data_With_Document_Word_List MODE fresh (Some object) (Some query)
         data_length MODE = Ok r ∧
       Intersect_Data_With_Document_Word_List MODE fresh' (Some object) (Some query')
         data_length' MODE = Ok r.
Proof.
  intros Hvalid Hlen Hquery Hlen' Hquery' HA Hsame.
  destruct (Intersect_ordered MODE fresh object query data_length Hvalid Hlen Hquery HA)
    as (r & Hr & HP & Hpassed & Hzero).
  assert (Addressable object query' data_length') as HA'.
  { intros i v [Hv Hq]. apply (HA i). split; [done | by apply Hsame]. }
  destruct (Intersect_ordered MODE fresh' object query' data_length' Hvalid Hlen' Hquery' HA')
    as (r' & Hr' & HP' & Hpassed' & Hzero').
  exists r. split; [done |]. rewrite Hr'. f_equal.
  pose proof HP as ((Hn & Hm & Hnext & Hflag) & Hlay & Hlens & _).
  pose proof HP' as ((Hn' & Hm' & Hnext' & Hflag') & Hlay' & Hlens' & _).
  apply container_eq; try done; try congruence.
  - intros j. rewrite (Hpassed j), (Hpassed' j).
    symmetry. by apply first_matches_same_values.
  - intros j Hj. split; [apply Hzero'; lia | apply Hzero; lia].
Qed.

Lemma Intersect_same_values_witness :
  ∃ r, Intersect_Data_With_Document_Word_List 0 cleared (Some scenario_container)
         (Some [1; 2; 4]%N) 3 0 = Ok r ∧
       Intersect_Data_With_Document_Word_List 0 dirty (Some scenario_container)
         (Some [4; 2; 2; 1; 9]%N) 4 0 = Ok r.
Proof.
  apply (Intersect_same_values 0 cleared dirty scenario_container
           [1; 2; 4]%N [4; 2; 2; 1; 9]%N 3 4).
  - compute_done.
  - simpl. lia.
  - simpl. lia.
  - simpl. lia.
  - simpl. lia.
  - apply Addressable_small. intros v Hv. simpl in Hv.
    repeat (apply elem_of_cons in Hv as [->|Hv]; [done |]). by apply elem_of_nil in Hv.
  - intros v. simpl. rewrite !elem_of_cons, !elem_of_nil. split.
    + intros [->|[->|[->|[]]]]; auto.
    + intros [->|[->|[->|[->|[]]]]]; auto.
Defined.

(** ** Intersection: one value *)

Lemma bind_Ok {A} (m : Outcome A) : m ≫= (λ a, Ok a) = m.
Proof. by destruct m. Qed.

Lemma Intersect_single (MODE : Z) (fresh : nat → bool) (v : N) :
  Intersect_Data_With_Document_Word_List MODE fresh (Some (single v)) (Some [v]) 1 MODE
  = st ← add_to_result 0 v
           (grow_multiple_guard fresh v
              {| intersection_result :=
                   {| data := [[0%N]]; arrays_lengths := [0];
                      number_of_arrays := 1; max_array_length := 1;
                      next_free_array := 1; intersection_data := true |};
                 size_multiple_guard := multiple_guard_realloc_step;
                 multiple_guard := replicate multiple_guard_realloc_step false |});
    Ok st.(intersection_result).
Proof.
  unfold Intersect_Data_With_Document_Word_List.
  rewrite Z.eqb_refl.
  cbn -[replicate multiple_guard_realloc_step add_to_result grow_multiple_guard N.eqb].
  rewrite N.eqb_refl, !bind_Ok. reflexivity.
Qed.

(** X12: the call on one array that holds one value [v], with the data [v].
    Below 1000 the result holds [v]. At 1000, and from 2000 on, the call reads
    the guard out of bounds. Between 1000 and 2000 the guard grows to 2000
    cells and the call returns; the result holds [v] unless the cell of [v] that
    [REALLOC] added reads as a mark, and is empty if it does. *)
Theorem Intersect_single_value (MODE : Z) (fresh : nat → bool) (v : N) :
  ((v < 1000)%N →
   ∃ r, Intersect_Data_With_Document_Word_List MODE fresh (Some (single v))
          (Some [v]) 1 MODE = Ok r ∧ used_elements r 0 = [v]) ∧
  ((v = 1000 ∨ 2000 ≤ v)%N →
   Intersect_Data_With_Document_Word_List MODE fresh (Some (single v))
     (Some [v]) 1 MODE = Out_of_bounds Block_multiple_guard) ∧
  ((1000 < v < 2000)%N →
   ∃ r, Intersect_Data_With_Document_Word_List MODE fresh (Some (single v))
          (Some [v]) 1 MODE = Ok r ∧
        used_elements r 0 = if fresh (N.to_nat v) then [] else [v]).
Proof.
  split_and!.
  - intros Hv.
    destruct (Intersect_ordered MODE fresh (single v) [v] 1) as (r & Hr & _ & Hpassed & _).
    + apply single_Valid.
    + simpl. lia.
    + simpl. lia.
    + apply Addressable_small. by intros v' ->%list_elem_of_singleton.
    + exists r. split; [done |]. rewrite (Hpassed 0).
      unfold first_matches, pass_step; simpl. rewrite decide_True; [done |].
      split; [by apply list_elem_of_singleton | by intros ?%elem_of_nil].
  - intros Hv. rewrite Intersect_single, guard_overrun; [done | | ].
    + cbn [multiple_guard size_multiple_guard]. apply length_replicate.
    + cbn [multiple_guard size_multiple_guard]. unfold multiple_guard_realloc_step. lia.
  - intros Hv. rewrite Intersect_single.
    unfold grow_multiple_guard. cbn [size_multiple_guard multiple_guard intersection_result].
    destruct (N.ltb_spec (N.of_nat multiple_guard_realloc_step) v) as [_|Hle];
      [| unfold multiple_guard_realloc_step in Hle; lia].
    assert (REALLOC fresh (replicate multiple_guard_realloc_step false)
              (multiple_guard_realloc_step + multiple_guard_realloc_step) !! N.to_nat v
            = Some (fresh (N.to_nat v))) as Hcell.
    { unfold REALLOC. rewrite take_ge by (rewrite length_replicate; lia).
      rewrite lookup_app_r; rewrite length_replicate;
        [| unfold multiple_guard_realloc_step; lia].
      rewrite list_lookup_fmap, lookup_seq_lt;
        [| unfold multiple_guard_realloc_step; lia].
      simpl. f_equal. f_equal. unfold multiple_guard_realloc_step. lia. }
    unfold add_to_result, load. cbn [multiple_guard]. rewrite Hcell.
    destruct (fresh (N.to_nat v)); cbn [mbind Outcome_bind].
    + eexists. split; reflexivity.
    + cbn [intersection_result arrays_lengths data lookup list_lookup mbind Outcome_bind].
      unfold store at 1 2. cbn [length bool_decide]. simpl bool_decide.
      cbn [mbind Outcome_bind]. unfold store.
      rewrite bool_decide_eq_true_2 by (by apply lookup_lt_Some in Hcell).
      cbn [mbind Outcome_bind]. eexists. split; reflexivity.
Qed.

Lemma Intersect_single_value_witness :
  Intersect_Data_With_Document_Word_List 0 cleared (Some (single 3000))
    (Some [3000]%N) 1 0 = Out_of_bounds Block_multiple_guard ∧
  ∃ r, Intersect_Data_With_Document_Word_List 0 dirty (Some (single 1999))
         (Some [1999]%N) 1 0 = Ok r ∧ used_elements r 0 = [].
Proof.
  split.
  - apply (Intersect_single_value 0 cleared 3000). right. done.
  - apply (Intersect_single_value 0 dirty 1999). done.
Defined.

(** ** The printout *)

Example Show_Data_scenario :
  Show_Data_From_Document_Word_List (Some scenario_container)
  = Ok ("> Data <" +:+ newline +:+
        " 1: {  1,  2,  3,  2,  1 }" +:+ newline +:+
        " 2: {  4,  5,  6 }" +:+ newline).
Proof. vm_compute. reflexivity. Qed.

Lemma append_String (c : Ascii.ascii) (a b : string) :
  String c a +:+ b = String c (a +:+ b).
Proof. reflexivity. Qed.

Lemma append_assoc (a b c : string) : (a +:+ b) +:+ c = a +:+ (b +:+ c).
Proof.
  induction a as [|x a IH]; [done |]. by rewrite !append_String, IH.
Qed.

Lemma append_empty_r (a : string) : a +:+ "" = a.
Proof. induction a as [|x a IH]; [done |]. by rewrite append_String, IH. Qed.

Lemma show_values_cons (x : N) (l : list N) :
  show_values (x :: l)
  = printf_2u x +:+ (if bool_decide (0 < length l) then ", " +:+ show_values l else "").
Proof. by destruct l. Qed.

Lemma show_element_Ok (object : Document_Word_List) (i length_i i2 : nat)
    (out : string) (array : list N) (x : N) :
  object.(data) !! i = Some array → array !! i2 = Some x →
  show_element object i length_i i2 out
  = Ok (if bool_decide (i2 + 1 < length_i)
        then (out +:+ printf_2u x) +:+ ", " else out +:+ printf_2u x).
Proof.
  intros Harray Hx. unfold show_element, load. rewrite Harray.
  cbn [mbind Outcome_bind]. by rewrite Hx.
Qed.

Lemma show_elements_loop (object : Document_Word_List) (i length_i : nat)
    (count from : nat) (out : string) :
  i < length object.(data) → from + count = length_i →
  length_i ≤ length (array_of object i) →
  for_loop count from (show_element object i length_i) out
  = Ok (out +:+ show_values (take count (drop from (array_of object i)))).
Proof.
  intros Hi. revert from out. induction count as [|count IH]; intros from out Hlen Hrow.
  - by rewrite take_0, append_empty_r.
  - cbn [for_loop].
    destruct (lookup_lt_is_Some_2 object.(data) i Hi) as [array Harray].
    assert (array_of object i = array) as Harr by (unfold array_of; by rewrite Harray).
    rewrite Harr in *.
    destruct (lookup_lt_is_Some_2 array from) as [x Hx]; [lia |].
    rewrite (show_element_Ok object i length_i from out array x) by done.
    cbn [mbind Outcome_bind]. rewrite IH by lia.
    rewrite (drop_S array x from Hx). rewrite firstn_cons, show_values_cons.
    rewrite length_take, length_drop. f_equal.
    destruct (decide (from + 1 < length_i)) as [Hmore|Hlast].
    + rewrite !bool_decide_eq_true_2 by lia. by rewrite !append_assoc.
    + rewrite !bool_decide_eq_false_2 by lia.
      replace count with 0 by lia. by rewrite take_0, !append_assoc.
Qed.

Lemma show_array_Ok (object : Document_Word_List) (i : nat) (out : string) :
  Valid object → i < object.(number_of_arrays) →
  show_array object i out = Ok (out +:+ show_line i (used_elements object i)).
Proof.
  intros Hvalid Hi. pose proof Hvalid as [(_ & _ & Hdata & _ & Hlengths) _].
  unfold show_array, load.
  destruct (lookup_lt_is_Some_2 object.(arrays_lengths) i) as [u Hu]; [lia |].
  assert (length_of object i = u) as Hlen by (unfold length_of; by rewrite Hu).
  rewrite Hu. cbn [mbind Outcome_bind].
  rewrite (show_elements_loop object i u u 0); [| lia | lia |].
  2: { rewrite <- Hlen, Layout_array_length by (apply Hvalid || lia).
       by apply Valid_length_of. }
  cbn [mbind Outcome_bind]. unfold show_line, used_elements.
  rewrite drop_0, Hlen. f_equal. by rewrite !append_assoc.
Qed.

Lemma show_arrays_loop (object : Document_Word_List) (count from : nat) (out : string) :
  Valid object → from + count ≤ object.(number_of_arrays) →
  for_loop count from (show_array object) out
  = Ok (out +:+ show_lines from (used_elements object <$> seq from count)).
Proof.
  intros Hvalid. revert from out. induction count as [|count IH]; intros from out Hcount.
  - by rewrite append_empty_r.
  - cbn [for_loop]. rewrite show_array_Ok by (done || lia).
    cbn [mbind Outcome_bind]. rewrite IH by lia.
    cbn [seq fmap list_fmap show_lines]. by rewrite !append_assoc.
Qed.

(** X13: the printout of a valid container is the title line followed by one
    line for each array, numbered from 1, that lists the elements in use of the
    array, two characters wide at least and separated by commas; the cells of
    an array after its length are not read, and no access is out of bounds. On
    a NULL object the function aborts on its assertion. *)
Theorem Show_Data_prints_elements_in_use (object : Document_Word_List) :
  Valid object →
  Show_Data_From_Document_Word_List (Some object)
  = Ok ("> Data <" +:+ newline +:+
        show_lines 0 (used_elements object <$> seq 0 object.(number_of_arrays))) ∧
  Show_Data_From_Document_Word_List None = Assert_failed Object_is_NULL.
Proof.
  intros Hvalid. split; [| done]. unfold Show_Data_From_Document_Word_List.
  rewrite show_arrays_loop by (done || lia). by rewrite append_assoc.
Qed.

Lemma Show_Data_prints_elements_in_use_witness :
  Show_Data_From_Document_Word_List (Some scenario_container)
  = Ok ("> Data <" +:+ newline +:+
        show_lines 0 [[1; 2; 3; 2; 1]; [4; 5; 6]]%N).
Proof.
  refine (proj1 (Show_Data_prints_elements_in_use scenario_container _)).
  compute_done.
Defined.

(** * The sorted approaches and the approach of the source *)

Lemma grow_multiple_guard_result (fresh : nat → bool) (y : N) (st : Loop_State) :
  (grow_multiple_guard fresh y st).(intersection_result) = st.(intersection_result).
Proof. unfold grow_multiple_guard. by destruct (_ <? _)%N. Qed.

Section Sorted_Loops.

Variable sort : list N → list N.
Variable fresh : nat → bool.
Variable object : Document_Word_List.
Variable query : list N.
Variable data_length : nat.

Hypothesis sort_Permutation : ∀ l, sort l ≡ₚ l.
Hypothesis sort_sorted : ∀ l, StronglySorted N.le (sort l).
Hypothesis object_valid : Valid object.
Hypothesis query_block : data_length ≤ length query.

Abbreviation Within := (Within object query data_length).
Abbreviation Between := (Between object query data_length).
Abbreviation Searched := (Searched object query data_length).
Abbreviation matched := (matched object query data_length).
Abbreviation Overrun := (Overrun object query data_length).
Abbreviation Addressable := (Addressable object query data_length).

(** The search finds the values in use of the array. *)
Lemma search_sorted (i : nat) (y : N) :
  binary_search (sort (used_elements object i)) y = true ↔ y ∈ used_elements object i.
Proof.
  rewrite binary_search_spec by apply StronglySorted_Ascending, sort_sorted.
  by rewrite sort_Permutation.
Qed.

Lemma search_element_guarded (i i3 : nat) (st : Loop_State) :
  i < object.(number_of_arrays) → i3 < data_length →
  Searched i i3 st →
  guarded Overrun (Searched i (S i3))
    (search_element fresh query (sort (used_elements object i)) i i3 st).
Proof.
  intros Hi Hi3 [HW Hfound].
  destruct (lookup_lt_is_Some_2 query i3) as [y Hy]; [lia |].
  unfold search_element, load. rewrite Hy. simpl.
  destruct (binary_search _ y) eqn:Hhit.
  - assert (matched i y) as Hm.
    { split; [by apply search_sorted |].
      apply list_elem_of_lookup. exists i3. by rewrite lookup_take_lt. }
    pose proof (grow_multiple_guard_Within fresh _ _ _ query_block i 0 0 y st Hm HW)
      as HW'.
    eapply guarded_mono.
    { apply (guarded_and Overrun
               (λ st', Within i 0 0 st' ∧
                       (Addressable → y ∈ used_elements st'.(intersection_result) i))
               (λ st', Addressable →
                       ∀ v, v ∈ used_elements st.(intersection_result) i →
                            v ∈ used_elements st'.(intersection_result) i)).
      - by apply (add_to_result_guarded _ _ _ object_valid query_block i 0 0 y).
      - intros st' Hst' _ HA v Hv.
        destruct (add_to_result_exact _ _ _ HA i 0 0 y _ st' HW' Hst')
          as [[-> _]|(_ & Hres & Hd & Hl & Hroom)].
        + by rewrite grow_multiple_guard_result.
        + rewrite Hres, used_elements_appended by done.
          rewrite grow_multiple_guard_result. apply elem_of_app. by left. }
    simpl. intros st' [[HW1 Hin] Hkept]. split; [done |].
    intros HA b v Hb Hbv Hv. destruct (decide (b = i3)) as [->|Hne].
    + assert (v = y) as -> by congruence. by apply Hin.
    + apply (Hkept HA), (Hfound HA b); [lia | done | done].
  - simpl. split; [done |].
    intros HA b v Hb Hbv Hv. destruct (decide (b = i3)) as [->|Hne].
    + assert (v = y) as -> by congruence.
      apply search_sorted in Hv. congruence.
    + apply (Hfound HA b); [lia | done | done].
Qed.

Lemma search_array_guarded (i : nat) (st : Loop_State) :
  i < object.(number_of_arrays) →
  Between i st →
  guarded Overrun (Between (S i)) (search_array sort fresh object query data_length i st).
Proof.
  intros Hi [HC Hzero].
  pose proof HC as [Hshape Hlay Hlens Hguard Hsize Hsmall Hdone Hunt].
  pose proof object_valid as [HL HI].
  pose proof (Layout_array_length _ _ HL Hi) as Harray_len.
  pose proof (Valid_length_of _ i object_valid) as Hlen_i.
  assert (object.(arrays_lengths) !! i = Some (length_of object i)) as Hused.
  { unfold length_of. destruct HL as (_ & _ & _ & _ & Hlengths).
    destruct (lookup_lt_is_Some_2 object.(arrays_lengths) i) as [u Hu]; [lia |].
    by rewrite Hu. }
  assert (object.(data) !! i = Some (array_of object i)) as Harray.
  { unfold array_of. destruct HL as (_ & _ & Hdata & _).
    destruct (lookup_lt_is_Some_2 object.(data) i) as [a Ha]; [lia |]. by rewrite Ha. }
  unfold search_array, load. rewrite Hused. simpl. rewrite Harray. simpl.
  rewrite bool_decide_true by lia.
  change (take (length_of object i) (array_of object i)) with (used_elements object i).
  eapply guarded_mono.
  { apply (for_loop_guarded Overrun (Searched i)).
    - split; [| intros _ b v Hb; lia]. split; simpl.
      + split; simpl; try done. by rewrite length_replicate.
      + rewrite used_elements_nil by done. constructor.
      + rewrite used_elements_nil by done. by intros v ?%elem_of_nil.
      + rewrite used_elements_nil by done. by intros v ?%elem_of_nil.
      + intros _ k Hk. apply lookup_replicate in Hk as [? _]. done.
      + intros _ a b v Hab. lia.
    - intros k s Hk Hs. apply search_element_guarded; [done | lia | done]. }
  simpl. intros st' [[HC' Hnd Hsound Hmarks Hexact Hcomplete] Hfound].
  destruct HC' as [Hshape' Hlay' Hlens' Hguard' Hsize' Hsmall' Hdone' Hunt'].
  split.
  - split; try done.
    + intros j Hj. destruct (decide (j = i)) as [->|Hne]; [| apply Hdone'; lia].
      split; [done |]. split; [done |].
      intros HA v [Hv Hq]. apply list_elem_of_lookup in Hq as [b Hb].
      apply lookup_take_Some in Hb as [Hb Hlt]. by apply (Hfound HA b).
    + intros j Hj. apply Hunt'. lia.
  - apply Hunt'. lia.
Qed.

Lemma search_loops_guarded (st : Loop_State) :
  Between 0 st →
  guarded Overrun (λ st', Post object query data_length st'.(intersection_result))
    (search_loops sort fresh object query data_length st).
Proof.
  intros Hst. unfold search_loops.
  eapply guarded_mono.
  { apply (for_loop_guarded Overrun Between); [done |].
    intros k s Hk Hs. apply search_array_guarded; [lia | done]. }
  simpl. intros st' [[Hshape Hlay Hlens Hguard Hsize Hsmall Hdone Hunt] _].
  split; [done |]. split; [done |]. split; [done |].
  intros j. destruct (decide (j < object.(number_of_arrays))) as [Hj|Hj]; [by apply Hdone |].
  destruct Hshape as (Hn & _).
  assert (used_elements st'.(intersection_result) j = []) as Hnil.
  { apply used_elements_nil, length_of_outside; [done | lia]. }
  unfold Slot_Done. rewrite Hnil. split; [constructor |].
  split; [by intros v ?%elem_of_nil |].
  intros _ v [Hv _]. pose proof object_valid as [HL _].
  rewrite (used_elements_nil object j) in Hv; [done |].
  apply length_of_outside; [done | lia].
Qed.

End Sorted_Loops.

(** A sorted approach returns a result with the postcondition of the source's
    intersection, or overruns the guard as the source does. *)
Lemma Sorted_approach_guarded (sort : list N → list N) (fresh : nat → bool)
    (object : Document_Word_List) (query : list N) (data_length : nat) :
  (∀ l, sort l ≡ₚ l) → (∀ l, StronglySorted N.le (sort l)) →
  Valid object → 0 < data_length → data_length ≤ length query →
  guarded (Overrun object query data_length) (Post object query data_length)
    (IntersectionApproach_SortAndBinarySearch sort fresh (Some object) (Some query)
       data_length).
Proof.
  intros Hperm Hsorted Hvalid Hpos Hquery. pose proof Hvalid as [(Hn & Hm & _) _].
  unfold IntersectionApproach_SortAndBinarySearch.
  destruct (Nat.eqb_spec data_length 0) as [->|_]; [lia |]. step_assert.
  rewrite Create_Ok by done. step_assert.
  eapply guarded_bind.
  { apply search_loops_guarded; [done | done | done | done |].
    by apply (initial_state object query data_length _ Hvalid (Create_Ok _ _ Hn Hm)). }
  by intros st' Hpost.
Qed.

Lemma Sorted_approach_total (sort : list N → list N) (fresh : nat → bool)
    (object : Document_Word_List) (query : list N) (data_length : nat) :
  (∀ l, sort l ≡ₚ l) → (∀ l, StronglySorted N.le (sort l)) →
  Valid object → 0 < data_length → data_length ≤ length query →
  Addressable object query data_length →
  ∃ r, IntersectionApproach_SortAndBinarySearch sort fresh (Some object) (Some query)
         data_length = Ok r ∧ Post object query data_length r.
Proof.
  intros Hperm Hsorted Hvalid Hpos Hquery HA.
  eapply guarded_total; [by apply Sorted_approach_guarded |].
  intros (i & v & Hm & Hv). specialize (HA i v Hm). lia.
Qed.

(** Two results with the postcondition hold the same values in each slot, up
    to their order. *)
Lemma Post_Permutation (object : Document_Word_List) (query : list N) (data_length : nat)
    (r1 r2 : Document_Word_List) (i : nat) :
  Addressable object query data_length →
  Post object query data_length r1 → Post object query data_length r2 →
  used_elements r1 i ≡ₚ used_elements r2 i.
Proof.
  intros HA (_ & _ & _ & Hdone1) (_ & _ & _ & Hdone2).
  destruct (Hdone1 i) as (Hnd1 & Hsound1 & Hcomplete1).
  destruct (Hdone2 i) as (Hnd2 & Hsound2 & Hcomplete2).
  apply NoDup_Permutation; [done | done |].
  intros v. split; intros Hv.
  - by apply Hcomplete2, Hsound1.
  - by apply Hcomplete1, Hsound2.
Qed.

(** The sorted approaches on the scenario of the specification. *)
Example scenario_sorted :
  (r ← IntersectionApproach_QSortAndBinarySearch cleared (Some scenario_container)
         (Some scenario_query) 3;
   Ok (used_elements r 0, used_elements r 1)) = Ok ([1; 2]%N, [4]%N) ∧
  (r ← IntersectionApproach_HeapSortAndBinarySearch cleared (Some scenario_container)
         (Some scenario_query) 3;
   Ok (used_elements r 0, used_elements r 1)) = Ok ([1; 2]%N, [4]%N).
Proof. split; vm_compute; reflexivity. Qed.

(** The order of a slot is that of the array for the nested loops and that of
    the data for the sorted approaches. *)
Example approaches_order :
  (r ← Intersect_Data_With_Document_Word_List 0 cleared (build 1 2 [[2; 1]]%N)
         (Some [1; 2]%N) 2 0;
   Ok (used_elements r 0)) = Ok [2; 1]%N ∧
  (r ← IntersectionApproach_QSortAndBinarySearch cleared (build 1 2 [[2; 1]]%N)
         (Some [1; 2]%N) 2;
   Ok (used_elements r 0)) = Ok [1; 2]%N.
Proof. split; vm_compute; reflexivity. Qed.

(** C3, as the claim has it, fails: the intersection of the source takes the
    kind of the approach as its mode and accepts one mode only, whatever its
    value; no two kinds both succeed on the scenario of the specification. *)
Lemma one_intersection_mode_is_supported :
  ¬ ∃ (MODE mode1 mode2 : Z) (r1 r2 : Document_Word_List),
      mode1 ≠ mode2 ∧
      Intersect_Data_With_Document_Word_List MODE cleared (Some scenario_container)
        (Some scenario_query) 3 mode1 = Ok r1 ∧
      Intersect_Data_With_Document_Word_List MODE cleared (Some scenario_container)
        (Some scenario_query) 3 mode2 = Ok r2.
Proof.
  intros (MODE & mode1 & mode2 & r1 & r2 & Hne & Hr1 & Hr2).
  apply Intersect_inv in Hr1 as (_ & _ & _ & _ & _ & Hmode1 & _).
  apply Intersect_inv in Hr2 as (_ & _ & _ & _ & _ & Hmode2 & _).
  congruence.
Qed.

(** C3, amended: the approaches are functions of their own, and the
    intersection of the source, the approach with two nested loops, accepts
    the mode [INTERSECTION_MODE_DEFAULTS] only. For a valid container and a
    query whose matched values are below the size of the guard, the approach
    with two nested loops, the approach with a quicksort and a binary search
    and the approach with a heap sort and a binary search each return, and
    every slot of their results holds the same values, those of the array
    that are in the query, once each, in an order of its own. *)
Theorem approaches_agree_on_addressable_values (MODE : Z)
    (fresh1 fresh2 fresh3 : nat → bool)
    (object : Document_Word_List) (query : list N) (data_length : nat) :
  Valid object → 0 < data_length ≤ object.(max_array_length) →
  data_length ≤ length query →
  Addressable object query data_length →
  (∀ mode, mode ≠ MODE →
     Intersect_Data_With_Document_Word_List MODE fresh1 (Some object) (Some query)
       data_length mode = Assert_failed Invalid_intersection_mode) ∧
  ∃ nested qsorted hsorted,
    Intersect_Data_With_Document_Word_List MODE fresh1 (Some object) (Some query)
      data_length MODE = Ok nested ∧
    IntersectionApproach_QSortAndBinarySearch fresh2 (Some object) (Some query)
      data_length = Ok qsorted ∧
    IntersectionApproach_HeapSortAndBinarySearch fresh3 (Some object) (Some query)
      data_length = Ok hsorted ∧
    ∀ i, used_elements nested i ≡ₚ used_elements qsorted i ∧
         used_elements nested i ≡ₚ used_elements hsorted i ∧
         NoDup (used_elements nested i) ∧
         ∀ v, v ∈ used_elements nested i ↔
              v ∈ used_elements object i ∧ v ∈ take data_length query.
Proof.
  intros Hvalid [Hpos Hmax] Hquery HA. split.
  - intros mode Hmode. unfold Intersect_Data_With_Document_Word_List.
    destruct (Nat.eqb_spec data_length 0) as [->|_]; [lia |]. step_assert.
    by destruct (Z.eqb_spec mode MODE).
  - destruct (Intersect_total MODE fresh1 object query data_length)
      as (nested & Hnested & HPn); try done.
    destruct (Sorted_approach_total quicksort fresh2 object query data_length)
      as (qsorted & Hqsorted & HPq);
      [apply quicksort_Permutation | apply quicksort_sorted | done..|].
    destruct (Sorted_approach_total heapsort fresh3 object query data_length)
      as (hsorted & Hhsorted & HPh);
      [apply heapsort_Permutation | apply heapsort_sorted | done..|].
    exists nested, qsorted, hsorted. split_and!; try done.
    intros i. split_and!.
    + by eapply Post_Permutation.
    + by eapply Post_Permutation.
    + by destruct HPn as (_ & _ & _ & Hdone); destruct (Hdone i).
    + destruct HPn as (_ & _ & _ & Hdone). destruct (Hdone i) as (_ & Hsound & Hcomplete).
      intros v. split; [apply Hsound | by apply Hcomplete].
Qed.

Lemma approaches_agree_on_addressable_values_witness :
  ∃ nested qsorted hsorted,
    Intersect_Data_With_Document_Word_List 0 cleared (Some scenario_container)
      (Some scenario_query) 3 0 = Ok nested ∧
    IntersectionApproach_QSortAndBinarySearch cleared (Some scenario_container)
      (Some scenario_query) 3 = Ok qsorted ∧
    IntersectionApproach_HeapSortAndBinarySearch cleared (Some scenario_container)
      (Some scenario_query) 3 = Ok hsorted ∧
    ∀ i, used_elements nested i ≡ₚ used_elements qsorted i ∧
         used_elements nested i ≡ₚ used_elements hsorted i.
Proof.
  destruct (approaches_agree_on_addressable_values 0 cleared cleared cleared
              scenario_container scenario_query 3)
    as (_ & nested & qsorted & hsorted & Hnested & Hqsorted & Hhsorted & Hslots).
  - compute_done.
  - simpl. lia.
  - simpl. lia.
  - apply Addressable_small. intros v Hv. simpl in Hv.
    repeat (apply elem_of_cons in Hv as [->|Hv]; [lia |]). by apply elem_of_nil in Hv.
  - exists nested, qsorted, hsorted. split_and!; [done..|].
    intros i. destruct (Hslots i) as (Hq & Hh & _). by split.
Defined.

